(** * atomizer: electrons, their wire format, and the dispatcher loops

    A shallow embedding of the Go package [atomizer]: the [Electron] work
    request with its validity predicate and JSON payload codec, and the
    dispatcher ([atomizer] struct) with its registration, conductor, atom
    and distribution loops. Goroutine code is written in a small monad that
    threads the dispatcher state, records the observable actions in a trace
    and resolves every [select] against the environment. *)

From stdpp Require Import gmap strings list.
From Stdlib Require Import Strings.Byte ZArith Lia.

Local Open Scope string_scope.

(* ===================================================================== *)
(** * Part I: Electron *)
(* ===================================================================== *)

Module Base64.

Local Open Scope N_scope.

Definition byte_of_N (n : N) : byte :=
  match Byte.of_N n with Some b => b | None => x00 end.

(** The standard alphabet: A-Z, a-z, 0-9, [+], [/]. *)
Definition b64_char (n : N) : byte :=
  if n <? 26 then byte_of_N (65 + n)
  else if n <? 52 then byte_of_N (71 + n)
  else if n <? 62 then byte_of_N (n - 4)
  else if n =? 62 then x2b
  else x2f.

Definition b64_value (c : byte) : option N :=
  let n := Byte.to_N c in
  if (65 <=? n) && (n <=? 90) then Some (n - 65)
  else if (97 <=? n) && (n <=? 122) then Some (n - 71)
  else if (48 <=? n) && (n <=? 57) then Some (n + 4)
  else if n =? 43 then Some 62
  else if n =? 47 then Some 63
  else None.

Definition pad : byte := x3d.

Definition is_pad (c : byte) : bool := Byte.eqb c pad.

(** Three input bytes give four sextets; a tail of one or two bytes is
    padded with [=]. *)
Definition sextet1 (a : N) : N := a / 4.
Definition sextet2 (a b : N) : N := (a mod 4) * 16 + b / 16.
Definition sextet3 (b c : N) : N := (b mod 16) * 4 + c / 64.
Definition sextet4 (c : N) : N := c mod 64.

Definition octet1 (s1 s2 : N) : byte := byte_of_N ((s1 * 4 + s2 / 16) mod 256).
Definition octet2 (s2 s3 : N) : byte := byte_of_N (((s2 mod 16) * 16 + s3 / 4) mod 256).
Definition octet3 (s3 s4 : N) : byte := byte_of_N (((s3 mod 4) * 64 + s4) mod 256).

Fixpoint encode (l : list byte) : list byte :=
  match l with
  | [] => []
  | [a] =>
      let a := Byte.to_N a in
      [b64_char (sextet1 a); b64_char (sextet2 a 0); pad; pad]
  | [a; b] =>
      let a := Byte.to_N a in
      let b := Byte.to_N b in
      [b64_char (sextet1 a); b64_char (sextet2 a b); b64_char (sextet3 b 0); pad]
  | a :: b :: c :: rest =>
      let a := Byte.to_N a in
      let b := Byte.to_N b in
      let c := Byte.to_N c in
      b64_char (sextet1 a) :: b64_char (sextet2 a b)
        :: b64_char (sextet3 b c) :: b64_char (sextet4 c) :: encode rest
  end.

Fixpoint decode (l : list byte) : option (list byte) :=
  match l with
  | [] => Some []
  | c1 :: c2 :: c3 :: c4 :: rest =>
      match b64_value c1, b64_value c2 with
      | Some s1, Some s2 =>
          match b64_value c3 with
          | Some s3 =>
              match b64_value c4 with
              | Some s4 =>
                  match decode rest with
                  | Some tl => Some (octet1 s1 s2 :: octet2 s2 s3 :: octet3 s3 s4 :: tl)
                  | None => None
                  end
              | None =>
                  match rest with
                  | [] => if is_pad c4 then Some [octet1 s1 s2; octet2 s2 s3] else None
                  | _ :: _ => None
                  end
              end
          | None =>
              match rest with
              | [] => if is_pad c3 && is_pad c4 then Some [octet1 s1 s2] else None
              | _ :: _ => None
              end
          end
      | _, _ => None
      end
  | _ => None
  end.

(** A byte that may occur in base64 text. *)
Definition text_char (c : byte) : bool :=
  match b64_value c with Some _ => true | None => is_pad c end.

End Base64.

Module JSON.

(** A recogniser for RFC 8259 JSON texts over bytes. Every function
    returns the input that remains after the construct it recognises. *)

Definition is_ws (c : byte) : bool :=
  match c with
  | x20 | x09 | x0a | x0d => true
  | _ => false
  end.

Fixpoint skip_ws (l : list byte) : list byte :=
  match l with
  | c :: r => if is_ws c then skip_ws r else l
  | [] => []
  end.

Definition is_digit (c : byte) : bool :=
  let n := Byte.to_N c in ((48 <=? n) && (n <=? 57))%N.

Definition is_hex (c : byte) : bool :=
  let n := Byte.to_N c in
  (((48 <=? n) && (n <=? 57)) || ((65 <=? n) && (n <=? 70))
   || ((97 <=? n) && (n <=? 102)))%N.

Definition is_simple_escape (c : byte) : bool :=
  match c with
  | x22 | x5c | x2f | x62 | x66 | x6e | x72 | x74 => true
  | _ => false
  end.

(** The characters of a string after its opening quote, up to and
    including the closing quote. *)
Fixpoint string_body (l : list byte) : option (list byte) :=
  match l with
  | [] => None
  | x22 :: r => Some r
  | x5c :: x75 :: h1 :: h2 :: h3 :: h4 :: r =>
      if is_hex h1 && is_hex h2 && is_hex h3 && is_hex h4
      then string_body r else None
  | x5c :: c :: r => if is_simple_escape c then string_body r else None
  | x5c :: [] => None
  | c :: r => if (Byte.to_N c <? 32)%N then None else string_body r
  end.

Fixpoint digits (l : list byte) : list byte :=
  match l with
  | c :: r => if is_digit c then digits r else l
  | [] => []
  end.

Definition digits1 (l : list byte) : option (list byte) :=
  match l with
  | c :: r => if is_digit c then Some (digits r) else None
  | [] => None
  end.

Definition int_part (l : list byte) : option (list byte) :=
  match l with
  | x30 :: r => Some r
  | c :: r => if is_digit c then Some (digits r) else None
  | [] => None
  end.

Definition frac_part (l : list byte) : option (list byte) :=
  match l with
  | x2e :: r => digits1 r
  | _ => Some l
  end.

Definition exp_part (l : list byte) : option (list byte) :=
  match l with
  | x65 :: r | x45 :: r =>
      match r with
      | x2b :: r' | x2d :: r' => digits1 r'
      | _ => digits1 r
      end
  | _ => Some l
  end.

Definition number (l : list byte) : option (list byte) :=
  let l := match l with x2d :: r => r | _ => l end in
  match int_part l with
  | Some r => match frac_part r with
              | Some r => exp_part r
              | None => None
              end
  | None => None
  end.

Fixpoint value (fuel : nat) (l : list byte) : option (list byte) :=
  match fuel with
  | O => None
  | S fuel =>
      match skip_ws l with
      | x7b :: r =>
          match skip_ws r with
          | x7d :: r' => Some r'
          | _ => members fuel r
          end
      | x5b :: r =>
          match skip_ws r with
          | x5d :: r' => Some r'
          | _ => elements fuel r
          end
      | x22 :: r => string_body r
      | x74 :: x72 :: x75 :: x65 :: r => Some r
      | x66 :: x61 :: x6c :: x73 :: x65 :: r => Some r
      | x6e :: x75 :: x6c :: x6c :: r => Some r
      | r => number r
      end
  end
with elements (fuel : nat) (l : list byte) : option (list byte) :=
  match fuel with
  | O => None
  | S fuel =>
      match value fuel l with
      | Some r =>
          match skip_ws r with
          | x2c :: r' => elements fuel r'
          | x5d :: r' => Some r'
          | _ => None
          end
      | None => None
      end
  end
with members (fuel : nat) (l : list byte) : option (list byte) :=
  match fuel with
  | O => None
  | S fuel =>
      match skip_ws l with
      | x22 :: r =>
          match string_body r with
          | Some r =>
              match skip_ws r with
              | x3a :: r =>
                  match value fuel r with
                  | Some r =>
                      match skip_ws r with
                      | x2c :: r' => members fuel r'
                      | x7d :: r' => Some r'
                      | _ => None
                      end
                  | None => None
                  end
              | _ => None
              end
          | None => None
          end
      | _ => None
      end
  end.

Definition valid (l : list byte) : bool :=
  match value (2 * length l + 2) l with
  | Some r => match skip_ws r with [] => true | _ => false end
  | None => false
  end.

End JSON.

Module Electron.

(** The work request. [Timeout] is a nullable duration in nanoseconds
    (Go's [*time.Duration]); [Payload] is an opaque byte sequence. *)
Record t := mk {
  SenderID : string;
  ID : string;
  AtomID : string;
  Timeout : option Z;
  CopyState : bool;
  Payload : list byte;
}.

Definition nonempty (s : string) : bool := negb (String.eqb s "").

(** Modelled from the spec: the method [Electron.Validate] (its file is
    not among the sources; [electron_test.go] exercises it). An Electron
    is valid iff [SenderID], [ID] and [AtomID] are all non-empty. *)
Definition Validate (e : t) : bool :=
  nonempty (SenderID e) && nonempty (ID e) && nonempty (AtomID e).

(** Modelled from the spec: the electron wire format, at the level of the
    JSON object's members (lexing and string escaping belong to Go's
    [encoding/json]). [payload] holds the member's raw JSON text. *)
Record wire := mkWire {
  senderid : string;
  id : string;
  atomid : string;
  timeout : option Z;
  resp : option bool;
  copystate : option bool;
  payload : option (list byte);
}.

Definition quote : byte := x22.

Definition quoted (s : list byte) : list byte := quote :: s ++ [quote].

(** The text between the first and the last byte of a JSON string
    literal; [None] when the raw value is not delimited by quotes. *)
Definition unquote (raw : list byte) : option (list byte) :=
  match raw with
  | c :: r =>
      if Byte.eqb c quote then
        match rev r with
        | c' :: m => if Byte.eqb c' quote then Some (rev m) else None
        | [] => None
        end
      else None
  | [] => None
  end.

(** A raw JSON value that is a string literal whose text is base64. *)
Definition is_base64_string (raw : list byte) : bool :=
  match unquote raw with
  | Some s => match Base64.decode s with Some _ => true | None => false end
  | None => false
  end.

(** Modelled from the spec: the payload serializer of
    [Electron.MarshalJSON]. On emit, the payload is written as its raw
    bytes verbatim when valid JSON, otherwise base64-encoded; an empty
    payload is omitted (the member is optional). *)
Definition encode_payload (p : list byte) : option (list byte) :=
  match p with
  | [] => None
  | _ :: _ => if JSON.valid p then Some p else Some (quoted (Base64.encode p))
  end.

(** Modelled from the spec: the payload serializer of
    [Electron.UnmarshalJSON]. On decode, a base64 string is decoded to
    raw bytes, a non-base64 JSON value is preserved as its raw JSON
    encoding. *)
Definition decode_payload (raw : list byte) : list byte :=
  match unquote raw with
  | Some s => match Base64.decode s with Some p => p | None => raw end
  | None => raw
  end.

(** Modelled from the spec: [Electron.MarshalJSON]. The optional members
    are left out when they hold their zero value, as the expected
    encodings of [TestElectron_MarshalJSON] show. *)
Definition MarshalJSON (e : t) : wire :=
  {| senderid := SenderID e;
     id := ID e;
     atomid := AtomID e;
     timeout := Timeout e;
     resp := None;
     copystate := if CopyState e then Some true else None;
     payload := encode_payload (Payload e) |}.

(** Modelled from the spec: [Electron.UnmarshalJSON]. Members the
    Electron has no field for are ignored. *)
Definition UnmarshalJSON (w : wire) : t :=
  {| SenderID := senderid w;
     ID := id w;
     AtomID := atomid w;
     Timeout := timeout w;
     CopyState := match copystate w with Some b => b | None => false end;
     Payload := match payload w with Some raw => decode_payload raw | None => [] end |}.

(** The fixtures of [electron_test.go]. *)
Definition pay : list byte :=
  [x7b; x22; x74; x65; x73; x74; x22; x3a; x22; x74; x65; x73; x74; x22; x7d].

Definition pay64Encoded : list byte :=
  String.list_byte_of_string "eyJ0ZXN0IjoidGVzdCJ9".

Definition noopelectron : t :=
  {| SenderID := "empty"; ID := "empty"; AtomID := "empty";
     Timeout := None; CopyState := false; Payload := [] |}.

Definition nonb64 : t :=
  {| SenderID := "empty"; ID := "empty"; AtomID := "empty";
     Timeout := None; CopyState := false; Payload := pay |}.

Definition zero : t :=
  {| SenderID := ""; ID := ""; AtomID := "";
     Timeout := None; CopyState := false; Payload := [] |}.

End Electron.

Abbreviation Electron := Electron.t.

(* ===================================================================== *)
(** * Part II: the dispatcher *)
(* ===================================================================== *)

(** ** Values the dispatcher handles *)

Module Event.
Record t := mk {
  Message : string;
  ElectronID : string;
  AtomID : string;
  ConductorID : string;
}.
End Event.

(** Go [error] values: the package's [Error{Event, Internal}] struct, or an
    error of any other type (what a conductor may return). *)
#[warnings="-register-all"]
Inductive error :=
| Error (ev : Event.t) (Internal : option error)
| ForeignError (msg : string).

Module Properties.
Record t := mk {
  ElectronID : string;
  AtomID : string;
  Start : Z;
  End_ : Z;
  Error : option error;
  Result : option (list byte);
}.
End Properties.

(** A conductor is known to the dispatcher only through its interface; what
    its methods do is the environment's business ([Env] below). *)
Record Conductor := mkConductor { conductor_name : string }.

(** Atoms are user structs. Their dynamic type is either a pointer to a
    struct (the form registration expects) or a struct held by value. *)
Inductive kind := KInt | KString | KBool | KBytes.

Inductive fval :=
| FInt (z : Z)
| FString (s : string)
| FBool (b : bool)
| FBytes (l : list byte).

Record struct_type := mkStruct {
  type_name : string;
  type_fields : list (string * kind);
}.

Definition loc := nat.
Definition chan := nat.

Inductive Atom :=
| PtrAtom (T : struct_type) (p : loc)
| ValAtom (T : struct_type) (fields : list fval).

Definition zero_of (k : kind) : fval :=
  match k with
  | KInt => FInt 0
  | KString => FString ""
  | KBool => FBool false
  | KBytes => FBytes []
  end.

(** Go's zero value of a struct type: every field zero. *)
Definition zero_value (T : struct_type) : list fval :=
  map (fun f => zero_of (snd f)) (type_fields T).

(** [instance] as [conduct] builds it: the electron and the (nilable)
    conductor it came from. *)
Record instance := mkInstance {
  electron : Electron;
  conductor : option Conductor;
}.

(** A value of static type [interface{}]. *)
Inductive value :=
| VNil
| VElectron (e : Electron)
| VEvent (ev : Event.t)
| VError (err : error)
| VConductor (c : Conductor)
| VAtom (a : Atom)
| VOther (type_name : string).

Definition value_of_conductor (c : option Conductor) : value :=
  match c with Some c => VConductor c | None => VNil end.

Definition value_of_error (e : option error) : value :=
  match e with Some e => VError e | None => VNil end.

(** ** The dispatcher struct and the world around it *)

(** The fields of the [atomizer] struct that the methods below read or
    write. Channels are identified by the order in which [make] created
    them. The two mutexes ([atomsMu], [eventsMu]) only serialise access to
    [atoms] and [events]; a goroutine's run below is its own view of the
    struct, and what holds of one iteration holds from any world. *)
Record atomizer := mkAtomizer {
  electrons : chan;
  registrations : option chan;
  atoms : gmap string chan;
  events : option chan;
}.

Record world := mkWorld {
  disp : atomizer;
  heap : gmap loc (list fval);
  next_loc : loc;
  next_chan : chan;
  sel_ix : nat;
  clk_ix : nat;
}.

(** What the environment shows a [select] at the moment it resolves:
    whether the context is cancelled, whether the peer of the channel
    operation is ready, and the coin Go tosses when both are. Neither
    ready means the select waits for ever. The environment's schedule
    ([sched] below) holds one such entry per select executed. *)
Record sel_env := mkSel {
  ctx_done : bool;
  peer_ready : bool;
  coin : bool;
}.

Inductive sel := SelDone | SelComm | SelBlock.

(** [select { case <-ctx.Done(): ...; case <channel operation>: ... }] *)
Definition select2 (s : sel_env) (can_comm : bool) : sel :=
  match ctx_done s, peer_ready s && can_comm with
  | true, true => if coin s then SelDone else SelComm
  | true, false => SelDone
  | false, true => SelComm
  | false, false => SelBlock
  end.

(** The collaborators that are not this file's code: the [validator]
    package, the package's [ID], [simple] and [makeEvent] helpers, the
    scheduler, the clock, the conductors and the instance methods.
    [Valid] and [ID] are functions of the value they are given;
    [complete] is what the conductor's [Complete] returns; [bond] and
    [execute] are the instance's methods, [execute] with the effect the
    atom's processing has on the heap. *)
Record Env := mkEnv {
  Valid : value -> bool;
  ID : value -> string;
  simple : string -> option error -> error;
  makeEvent : string -> value;
  sched : nat -> sel_env;
  clock : nat -> Z;
  complete : Conductor -> Properties.t -> option error;
  bond : instance -> Atom -> option error;
  execute : instance -> Atom -> gmap loc (list fval) ->
            gmap loc (list fval) * Properties.t * option error;
  error_text : error -> string;
}.

(** ** Traces *)

Inductive delivery :=
| Delivered (ch : chan)
| NoConsumer
| Rejected
| Cancelled
| Stuck.

Inductive goroutine :=
| GoConduct (c : Conductor)
| GoSplit (atom : Atom) (ch : chan).

Inductive action :=
| AEmit (v : value) (d : delivery)
| AComplete (c : Conductor) (p : Properties.t)
| AGo (g : goroutine)
| ASend (ch : chan) (i : instance)
| AExec (i : instance) (a : Atom) (fields : option (list fval)).

(** ** The monad of goroutine code *)

Inductive outcome (A : Type) :=
| Ret (a : A)
| Blocked
| Panic.
Arguments Ret {A} a.
Arguments Blocked {A}.
Arguments Panic {A}.

Definition M (A : Type) : Type := world -> list action * world * outcome A.

Definition ret {A} (a : A) : M A := fun w => ([], w, Ret a).

Definition bind {A B} (m : M A) (f : A -> M B) : M B :=
  fun w =>
    match m w with
    | (t1, w1, Ret a) =>
        match f a w1 with
        | (t2, w2, o) => ((t1 ++ t2)%list, w2, o)
        end
    | (t1, w1, Blocked) => (t1, w1, Blocked)
    | (t1, w1, Panic) => (t1, w1, Panic)
    end.

Notation "x <- m ;; k" := (bind m (fun x => k))
  (at level 100, m at next level, right associativity).
Notation "m ;;; k" := (bind m (fun _ => k))
  (at level 100, right associativity).

Definition tell (t : list action) : M unit := fun w => (t, w, Ret tt).
Definition block {A} : M A := fun w => ([], w, Blocked).
Definition panic {A} : M A := fun w => ([], w, Panic).
Definition get : M world := fun w => ([], w, Ret w).

Definition set_sel_ix (n : nat) (w : world) : world :=
  mkWorld (disp w) (heap w) (next_loc w) (next_chan w) n (clk_ix w).
Definition set_clk_ix (n : nat) (w : world) : world :=
  mkWorld (disp w) (heap w) (next_loc w) (next_chan w) (sel_ix w) n.
Definition set_heap (h : gmap loc (list fval)) (w : world) : world :=
  mkWorld (disp w) h (next_loc w) (next_chan w) (sel_ix w) (clk_ix w).
Definition set_atoms (m : gmap string chan) (w : world) : world :=
  mkWorld (mkAtomizer (electrons (disp w)) (registrations (disp w)) m (events (disp w)))
          (heap w) (next_loc w) (next_chan w) (sel_ix w) (clk_ix w).

Definition put_heap (h : gmap loc (list fval)) : M unit :=
  fun w => ([], set_heap h w, Ret tt).

(** A two-way [select] against the context: consumes one entry of the
    schedule. *)
Definition select (E : Env) (can_comm : bool) : M sel :=
  fun w => ([], set_sel_ix (S (sel_ix w)) w, Ret (select2 (sched E (sel_ix w)) can_comm)).

(** [time.Now()]: consumes one reading of the clock. *)
Definition now (E : Env) : M Z :=
  fun w => ([], set_clk_ix (S (clk_ix w)) w, Ret (clock E (clk_ix w))).

(** [make(chan instance)] *)
Definition make_chan : M chan :=
  fun w => ([], mkWorld (disp w) (heap w) (next_loc w) (S (next_chan w)) (sel_ix w) (clk_ix w),
            Ret (next_chan w)).

(** A fresh heap cell holding [v]. *)
Definition alloc (v : list fval) : M loc :=
  fun w => ([], mkWorld (disp w) (<[next_loc w := v]> (heap w)) (S (next_loc w))
                        (next_chan w) (sel_ix w) (clk_ix w),
            Ret (next_loc w)).

(** ** The dispatcher's methods *)

Section Dispatcher.

Variable E : Env.

(** [a.event(events...)]: with no events channel the events are dropped;
    otherwise each event the validator accepts is sent, unless the
    context is done. *)
Fixpoint event_send (ch : chan) (evs : list value) : M unit :=
  match evs with
  | [] => ret tt
  | e :: rest =>
      if Valid E e then
        s <- select E true ;;
        match s with
        | SelDone => tell [AEmit e Cancelled]
        | SelComm => tell [AEmit e (Delivered ch)] ;;; event_send ch rest
        | SelBlock => tell [AEmit e Stuck] ;;; block
        end
      else tell [AEmit e Rejected] ;;; event_send ch rest
  end.

Definition event (evs : list value) : M unit :=
  w <- get ;;
  match events (disp w) with
  | None => tell (map (fun e => AEmit e NoConsumer) evs)
  | Some ch => event_send ch evs
  end.

Definition event1 (v : value) : M unit := event [v].

(** *** Conductors *)

Definition invalid_electron_error (c : Conductor) (e : Electron) : Event.t :=
  Event.mk "invalid electron" (Electron.ID e) "" (ID E (VConductor c)).

(** The [!validator.Valid(e)] branch of [conduct]. *)
Definition conduct_invalid (c : Conductor) (e : Electron) : M unit :=
  let err := invalid_electron_error c e in
  start <- now E ;;
  end_ <- now E ;;
  let p := Properties.mk (Electron.ID e) (Electron.AtomID e) start end_
                         (Some (Error err None)) None in
  tell [AComplete c p] ;;;
  event1 (VError (Error err (complete E c p))).

(** The rest of the loop body of [conduct] for a valid electron; [k] is
    the next iteration. *)
Definition conduct_valid (c : Conductor) (e : Electron) (k : M unit) : M unit :=
  event1 (VEvent (Event.mk "electron received" (Electron.ID e) (Electron.AtomID e)
                           (ID E (VConductor c)))) ;;;
  s <- select E true ;;
  match s with
  | SelDone => ret tt
  | SelBlock => block
  | SelComm =>
      w <- get ;;
      tell [ASend (electrons (disp w)) (mkInstance e (Some c))] ;;;
      event1 (VEvent (Event.mk "electron distributed" (Electron.ID e)
                               (Electron.AtomID e) (ID E (VConductor c)))) ;;;
      k
  end.

(** The [for { select { ... } }] of [conduct], over what the receiver
    channel will deliver: [stream], after which the channel is closed
    ([closes]) or stays silent. *)
Fixpoint conduct_loop (c : Conductor) (closes : bool) (stream : list Electron) : M unit :=
  s <- select E (match stream with [] => closes | _ :: _ => true end) ;;
  match s with
  | SelDone => ret tt
  | SelBlock => block
  | SelComm =>
      match stream with
      | [] =>
          event1 (VError (Error (Event.mk "receiver closed" (Electron.ID Electron.zero)
                                          "" (ID E (VConductor c))) None))
      | e :: rest =>
          if Valid E (VElectron e)
          then conduct_valid c e (conduct_loop c closes rest)
          else conduct_invalid c e ;;; conduct_loop c closes rest
      end
  end.

(** [a.conduct(ctx, conductor)], given what [conductor.Receive(ctx)]
    yields. *)
Definition conduct (c : Conductor) (receiver : list Electron * bool) : M unit :=
  conduct_loop c (snd receiver) (fst receiver).

Definition receiveConductor (c : Conductor) : M (option error) :=
  if Valid E (VConductor c) then
    tell [AGo (GoConduct c)] ;;;
    ret None
  else
    ret (Some (Error (Event.mk "invalid conductor" "" "" (ID E (VConductor c))) None)).

(** *** Atoms *)

Definition snapshot (a : Atom) (h : gmap loc (list fval)) : option (list fval) :=
  match a with
  | PtrAtom _ p => h !! p
  | ValAtom _ fields => Some fields
  end.

(** The [if err != nil { ... }] block of [exec]: the error is recorded in
    the instance's Properties, reported to the conductor if there is
    one, and emitted. *)
Definition exec_failed (inst : instance) (atom : Atom) (props : Properties.t)
    (err : error) : M unit :=
  let perr :=
    match Properties.Error props with
    | Some pe =>
        simple E "execution error"
          (Some (simple E (error_text E err)
             (Some (simple E "instance error" (Some pe)))))
    | None => err
    end in
  let props' :=
    Properties.mk (Properties.ElectronID props) (Properties.AtomID props)
                  (Properties.Start props) (Properties.End_ props)
                  (Some perr) (Properties.Result props) in
  match conductor inst with
  | Some c =>
      tell [AComplete c props'] ;;;
      event1 (value_of_error (complete E c props'))
  | None => ret tt
  end ;;;
  event1 (VError (Error (Event.mk "error executing atom"
                                  (Electron.ID (electron inst))
                                  (ID E (VAtom atom)) "")
                        (Some perr))).

(** [a.exec(inst, atom)]. The trace records the hand-over together with
    the fields the atom holds at that moment. *)
Definition exec (inst : instance) (atom : Atom) : M unit :=
  w <- get ;;
  tell [AExec inst atom (snapshot atom (heap w))] ;;;
  match bond E inst atom with
  | Some err =>
      event1 (VError (Error (Event.mk "error while bonding"
                                      (Electron.ID (electron inst))
                                      (ID E (VAtom atom))
                                      (ID E (value_of_conductor (conductor inst))))
                            (Some err)))
  | None =>
      w <- get ;;
      match execute E inst atom (heap w) with
      | (h, props, err) =>
          put_heap h ;;;
          match err with
          | None => ret tt
          | Some err => exec_failed inst atom props err
          end
      end
  end.

(** [reflect.New(reflect.TypeOf(atom).Elem())] followed by
    [.Interface().(Atom)]: a pointer to a new zero value of the struct
    type the prototype points to. [Elem] panics on a struct type. *)
Definition new_atom (atom : Atom) : M Atom :=
  match atom with
  | PtrAtom T _ => p <- alloc (zero_value T) ;; ret (PtrAtom T p)
  | ValAtom _ _ => panic
  end.

(** The body of [_split] for one instance taken off the atom's channel;
    [k] is the next iteration. *)
Definition split_item (atom : Atom) (inst : instance) (k : M unit) : M unit :=
  event1 (VEvent (Event.mk "new instance of electron"
                           (Electron.ID (electron inst))
                           (ID E (VAtom atom))
                           (ID E (value_of_conductor (conductor inst))))) ;;;
  fresh <- new_atom atom ;;
  exec inst fresh ;;;
  k.

(** The [for { select { ... } }] of [_split] over what the atom's
    channel will deliver. *)
Fixpoint split_loop (atom : Atom) (closes : bool) (stream : list instance) : M unit :=
  s <- select E (match stream with [] => closes | _ :: _ => true end) ;;
  match s with
  | SelDone => ret tt
  | SelBlock => block
  | SelComm =>
      match stream with
      | [] =>
          event1 (VError (Error (Event.mk "atom receiver closed" "" (ID E (VAtom atom)) "")
                                None))
      | inst :: rest => split_item atom inst (split_loop atom closes rest)
      end
  end.

Definition _split (atom : Atom) (receiver : list instance * bool) : M unit :=
  split_loop atom (snd receiver) (fst receiver).

Definition split (atom : Atom) : M chan :=
  ch <- make_chan ;;
  tell [AGo (GoSplit atom ch)] ;;;
  ret ch.

Definition receiveAtom (atom : Atom) : M (option error) :=
  if Valid E (VAtom atom) then
    ch <- split atom ;;
    (fun w => ([], set_atoms (<[ID E (VAtom atom) := ch]> (atoms (disp w))) w, Ret tt)) ;;;
    event1 (VEvent (Event.mk "registered electron channel" "" (ID E (VAtom atom)) "")) ;;;
    ret None
  else
    ret (Some (Error (Event.mk "invalid atom" "" (ID E (VAtom atom)) "") None)).

(** *** Registration *)

Definition register (input : value) : M unit :=
  (if Valid E input then ret tt
   else event1 (VError (simple E ("invalid registration " ++ ID E input) None))) ;;;
  match input with
  | VConductor v =>
      err <- receiveConductor v ;;
      match err with
      | None => event1 (VEvent (Event.mk "conductor received" "" "" (ID E (VConductor v))))
      | Some _ => ret tt
      end
  | VAtom v =>
      err <- receiveAtom v ;;
      match err with
      | None => event1 (VEvent (Event.mk "atom received" "" (ID E (VAtom v)) ""))
      | Some _ => ret tt
      end
  | _ =>
      event1 (VError (simple E ("unknown registration type " ++ ID E input) None))
  end.

(** One item drained by [receive]: register it, then announce it. *)
Definition receive_item (r : value) : M unit :=
  register r ;;;
  event1 (makeEvent E ("registered " ++ ID E r)).

Fixpoint receive_loop (closes : bool) (regs : list value) : M unit :=
  s <- select E (match regs with [] => closes | _ :: _ => true end) ;;
  match s with
  | SelDone => ret tt
  | SelBlock => block
  | SelComm =>
      match regs with
      | [] => event1 (VError (simple E "registrations closed" None))
      | r :: rest => receive_item r ;;; receive_loop closes rest
      end
  end.

Definition receive (incoming : list value * bool) : M unit :=
  w <- get ;;
  match registrations (disp w) with
  | None => event1 (VError (Error (Event.mk "nil registrations channel" "" "" "") None))
  | Some _ => receive_loop (snd incoming) (fst incoming)
  end.

(** *** Distribution *)

Definition not_registered (inst : instance) : value :=
  VError (Error (Event.mk "not registered" (Electron.ID (electron inst))
                          (Electron.AtomID (electron inst)) "") None).

(** The body of [distribute] for one instance taken off the intake; [k]
    is the next iteration. *)
Definition distribute_item (inst : instance) (k : M unit) : M unit :=
  w <- get ;;
  match atoms (disp w) !! Electron.AtomID (electron inst) with
  | None =>
      event1 (not_registered inst) ;;;
      k
  | Some achan =>
      event1 (VEvent (Event.mk "pushing electron to atom"
                               (Electron.ID (electron inst))
                               (Electron.AtomID (electron inst))
                               (ID E (value_of_conductor (conductor inst))))) ;;;
      s <- select E true ;;
      match s with
      | SelDone => ret tt
      | SelBlock => block
      | SelComm =>
          tell [ASend achan inst] ;;;
          event1 (VEvent (Event.mk "pushed electron to atom"
                                   (Electron.ID (electron inst))
                                   (Electron.AtomID (electron inst))
                                   (ID E (value_of_conductor (conductor inst))))) ;;;
          k
      end
  end.

Fixpoint distribute_loop (closes : bool) (intake : list instance) : M unit :=
  s <- select E (match intake with [] => closes | _ :: _ => true end) ;;
  match s with
  | SelDone => ret tt
  | SelBlock => block
  | SelComm =>
      match intake with
      | [] =>
          event1 (VError (Error (Event.mk "dist channel closed"
                                          (Electron.ID Electron.zero)
                                          (Electron.AtomID Electron.zero)
                                          (ID E VNil)) None))
      | inst :: rest => distribute_item inst (distribute_loop closes rest)
      end
  end.

Definition distribute (intake : list instance * bool) : M unit :=
  distribute_loop (snd intake) (fst intake).

End Dispatcher.

Local Open Scope list_scope.
(** ** Reading traces *)

Definition completes (t : list action) : list (Conductor * Properties.t) :=
  omap (fun a => match a with AComplete c p => Some (c, p) | _ => None end) t.

Definition sends (t : list action) : list (chan * instance) :=
  omap (fun a => match a with ASend ch i => Some (ch, i) | _ => None end) t.

Definition spawns (t : list action) : list goroutine :=
  omap (fun a => match a with AGo g => Some g | _ => None end) t.

Record handoff := mkHandoff {
  handed_instance : instance;
  handed_atom : Atom;
  handed_fields : option (list fval);
}.

Definition execs (t : list action) : list handoff :=
  omap (fun a => match a with AExec i a f => Some (mkHandoff i a f) | _ => None end) t.

Definition emits (a : action) : Prop := exists v d, a = AEmit v d.

Definition trace_of {A} (r : list action * world * outcome A) : list action := r.1.1.
Definition world_of {A} (r : list action * world * outcome A) : world := r.1.2.
Definition outcome_of {A} (r : list action * world * outcome A) : outcome A := r.2.

(** The world once a [select] has consumed its schedule entry. *)
Definition tick (w : world) : world := set_sel_ix (S (sel_ix w)) w.

(** A computation that only emits events: it leaves the world as it was,
    up to the schedule entries its selects consumed. *)
Definition emit_only (m : M unit) : Prop :=
  forall w, exists t n o,
    m w = (t, set_sel_ix n w, o) /\ Forall emits t /\ (o = Ret tt \/ o = Blocked).

(** ** An example environment

    Validators that ask for a non-empty name, identities taken from the
    name, conductors whose [Complete] succeeds and atoms that do nothing. *)

Definition atom_type (a : Atom) : struct_type :=
  match a with PtrAtom T _ => T | ValAtom T _ => T end.

Definition example_Valid (v : value) : bool :=
  match v with
  | VNil => false
  | VElectron e => Electron.Validate e
  | VEvent ev => Electron.nonempty (Event.Message ev)
  | VError (Error ev _) => Electron.nonempty (Event.Message ev)
  | VError (ForeignError _) => true
  | VConductor c => Electron.nonempty (conductor_name c)
  | VAtom a => Electron.nonempty (type_name (atom_type a))
  | VOther _ => true
  end.

Definition example_ID (v : value) : string :=
  match v with
  | VConductor c => conductor_name c
  | VAtom a => type_name (atom_type a)
  | VOther n => n
  | _ => ""
  end.

Definition example_env (s : nat -> sel_env) (clk : nat -> Z) : Env :=
  {| Valid := example_Valid;
     ID := example_ID;
     simple := fun msg internal => Error (Event.mk msg "" "" "") internal;
     makeEvent := fun msg => VEvent (Event.mk msg "" "" "");
     sched := s;
     clock := clk;
     complete := fun _ _ => None;
     bond := fun _ _ => None;
     execute := fun _ _ h => (h, Properties.mk "" "" 0 0 None None, None);
     error_text := fun _ => "" |}.

(** Every select finds its channel peer ready and the context live. *)
Definition running : nat -> sel_env := fun _ => mkSel false true false.

(** Every select finds the context cancelled and no peer. *)
Definition shut_down : nat -> sel_env := fun _ => mkSel true false false.

Definition ticking : nat -> Z := fun n => Z.of_nat n.

Definition counter_type : struct_type := mkStruct "counter" [("count", KInt)].

(** A dispatcher with an events consumer, an empty routing table, and one
    atom prototype on the heap whose [count] field holds 5. *)
Definition example_world : world :=
  {| disp := mkAtomizer 0 (Some 1) ∅ (Some 2);
     heap := {[ 0%nat := [FInt 5] ]};
     next_loc := 1;
     next_chan := 3;
     sel_ix := 0;
     clk_ix := 0 |}.

Definition example_conductor : Conductor := mkConductor "bus".

Definition sender_only : Electron := Electron.mk "s" "" "" None false [].

Definition echo_electron : Electron := Electron.mk "s" "e1" "echo" None false [].

Definition nameless_conductor : Conductor := mkConductor "".

Definition nameless_type : struct_type := mkStruct "" [].

Definition counter_atom : Atom := PtrAtom counter_type 0.

(** A computation that hands no atom to the executor and allocates
    nothing. *)
Definition quiet (m : M unit) : Prop :=
  forall w, exists t w' o,
    m w = (t, w', o) /\ execs t = [] /\ next_loc w' = next_loc w
    /\ (o = Ret tt \/ o = Blocked).

(** The Properties [conduct] reports for an invalid electron when the
    clock stands at reading [k]. *)
Definition failure_properties (E : Env) (c : Conductor) (e : Electron) (k : nat)
  : Properties.t :=
  Properties.mk (Electron.ID e) (Electron.AtomID e) (clock E k) (clock E (S k))
                (Some (Error (invalid_electron_error E c e) None)) None.

(** What a conductor adapter forwards of the electrons it pulled: the
    valid ones, each as an instance on the intake channel. *)
Definition forwarded (E : Env) (c : Conductor) (w : world) (pulled : list Electron)
  : list (chan * instance) :=
  map (fun e => (electrons (disp w), mkInstance e (Some c)))
      (List.filter (fun e => Valid E (VElectron e)) pulled).

(** A wire object with its payload member replaced. *)
Definition with_payload (w : Electron.wire) (raw : list byte) : Electron.wire :=
  Electron.mkWire (Electron.senderid w) (Electron.id w) (Electron.atomid w)
                  (Electron.timeout w) (Electron.resp w) (Electron.copystate w)
                  (Some raw).

(** An electron whose payload is the JSON string ["aGk="]. *)
Definition quoted_base64_electron : Electron :=
  Electron.mk "s" "e1" "echo" None false [x22; x61; x47; x6b; x3d; x22].


(** ** Further readings of traces and worlds *)

(** Where [distribute] sends an instance: the channel the routing table
    holds for its AtomID, if any. *)
Definition route (table : gmap string chan) (inst : instance) : option (chan * instance) :=
  match table !! Electron.AtomID (electron inst) with
  | Some ch => Some (ch, inst)
  | None => None
  end.

(** The Complete calls [conduct] makes for the electrons [invalids], the
    first of them when the clock stands at reading [k]: two readings
    each. *)
Fixpoint failure_reports (E : Env) (c : Conductor) (k : nat) (invalids : list Electron)
  : list (Conductor * Properties.t) :=
  match invalids with
  | [] => []
  | e :: rest => (c, failure_properties E c e k) :: failure_reports E c (S (S k)) rest
  end.

(** The events a trace shows as put on the events channel. *)
Definition delivered (t : list action) : list value :=
  omap (fun a => match a with AEmit v (Delivered _) => Some v | _ => None end) t.

(** The adapter a registration starts, by the kind of the value. *)
Definition started (E : Env) (r : value) : option (Conductor + Atom) :=
  match r with
  | VConductor c => if Valid E r then Some (inl c) else None
  | VAtom a => if Valid E r then Some (inr a) else None
  | _ => None
  end.

Definition adapter (g : goroutine) : Conductor + Atom :=
  match g with
  | GoConduct c => inl c
  | GoSplit a _ => inr a
  end.

(** The store of a world: everything but the positions in the schedule
    and on the clock. *)
Definition same_store (w w' : world) : Prop :=
  disp w' = disp w /\ heap w' = heap w
  /\ next_loc w' = next_loc w /\ next_chan w' = next_chan w.

(** Every channel of the routing table was made by [make_chan]. *)
Definition table_allocated (w : world) : Prop :=
  forall k ch, atoms (disp w) !! k = Some ch -> ch < next_chan w.

(** No two AtomIDs share a channel. *)
Definition table_injective (w : world) : Prop :=
  forall k1 k2 ch,
    atoms (disp w) !! k1 = Some ch -> atoms (disp w) !! k2 = Some ch -> k1 = k2.

(** The context is done at every select from schedule position [n] on. *)
Definition done_from (E : Env) (n : nat) : Prop :=
  forall m, n <= m -> ctx_done (sched E m) = true.

(** A computation that returns whenever the context is done from its
    first select on. *)
Definition returns_when_done {A} (E : Env) (m : M A) : Prop :=
  forall w, done_from E (sel_ix w) ->
    exists a, outcome_of (m w) = Ret a /\ sel_ix w <= sel_ix (world_of (m w)).

(** What a run of the distribution loop shows: its sends, and that it does
    nothing else. *)
Definition distribute_run (E : Env) (intake : list instance) (w : world)
    (r : list action * world * outcome unit) : Prop :=
  (exists k, sends (trace_of r) = omap (route (atoms (disp w))) (firstn k intake))
  /\ completes (trace_of r) = [] /\ spawns (trace_of r) = [] /\ execs (trace_of r) = []
  /\ same_store w (world_of r).


(** The error [exec] records in the Properties when the instance's
    execution returned [err]: [err] itself, or a chain around the error
    the Properties already carried. *)
Definition recorded_error (E : Env) (props : Properties.t) (err : error) : error :=
  match Properties.Error props with
  | Some pe =>
      simple E "execution error"
        (Some (simple E (error_text E err)
           (Some (simple E "instance error" (Some pe)))))
  | None => err
  end.

Definition with_error (props : Properties.t) (e : error) : Properties.t :=
  Properties.mk (Properties.ElectronID props) (Properties.AtomID props)
                (Properties.Start props) (Properties.End_ props)
                (Some e) (Properties.Result props).

(** What [register] starts for [r] in a world whose next channel is
    [next]. *)
Definition registered_goroutines (E : Env) (r : value) (next : chan) : list goroutine :=
  match r with
  | VConductor c => if Valid E r then [GoConduct c] else []
  | VAtom a => if Valid E r then [GoSplit a next] else []
  | _ => []
  end.

(** The routing table [register] leaves. *)
Definition registered_table (E : Env) (r : value) (next : chan)
    (table : gmap string chan) : gmap string chan :=
  match r with
  | VAtom a => if Valid E r then <[ID E r := next]> table else table
  | _ => table
  end.

(** The next channel [register] leaves. *)
Definition registered_next (E : Env) (r : value) (next : chan) : chan :=
  match r with
  | VAtom a => if Valid E r then S next else next
  | _ => next
  end.

(** ** Construction *)

(** The [atomizer] struct as [init] finds it: every channel and the
    routing table may still be nil. *)
Record atomizer_fields := mkFields {
  f_electrons : option chan;
  f_bonded : option chan;
  f_registrations : option chan;
  f_atoms : option (gmap string chan);
  f_events : option chan;
}.

(** [if c == nil { c = make(chan ...) }] *)
Definition ensure_chan (c : option chan) : M chan :=
  match c with
  | Some ch => ret ch
  | None => make_chan
  end.

Definition set_disp (d : atomizer) : M unit :=
  fun w => ([], mkWorld d (heap w) (next_loc w) (next_chan w) (sel_ix w) (clk_ix w), Ret tt).

(** [for _, r := range declared { a.register(r) }] *)
Fixpoint register_all (E : Env) (declared : list value) : M unit :=
  match declared with
  | [] => ret tt
  | r :: rest => register E r ;;; register_all E rest
  end.

(** [a.init(ctx)], given what [Registrations()] returns. The context is
    the environment's; the result is the [bonded] channel, which no other
    method reads. *)
Definition init (E : Env) (a : atomizer_fields) (declared : list value) : M chan :=
  el <- ensure_chan (f_electrons a) ;;
  bo <- ensure_chan (f_bonded a) ;;
  re <- ensure_chan (f_registrations a) ;;
  set_disp (mkAtomizer el (Some re)
                       (match f_atoms a with Some m => m | None => ∅ end)
                       (f_events a)) ;;;
  register_all E declared ;;;
  ret bo.

(** The struct's zero value. *)
Definition zero_fields : atomizer_fields := mkFields None None None None None.

(** A schedule on which the context is done while every peer is ready and
    Go's coin picks the channel operation. *)
Definition done_but_busy : nat -> sel_env := fun _ => mkSel true true false.

(** The table is sound in [w'] if it was in [w], and has kept its keys. *)
Definition table_kept (w w' : world) : Prop :=
  table_allocated w -> table_injective w ->
  table_allocated w' /\ table_injective w'
  /\ (forall k, is_Some (atoms (disp w) !! k) -> is_Some (atoms (disp w') !! k)).


(** The context is live and every channel peer is ready at every select
    from schedule position [n] on. *)
Definition live_from (E : Env) (n : nat) : Prop :=
  forall m, n <= m -> ctx_done (sched E m) = false /\ peer_ready (sched E m) = true.

(** How a loop ends once its channel has delivered everything: it returns
    if the channel is then closed, and waits otherwise. *)
Definition end_of_stream (closes : bool) : outcome unit :=
  if closes then Ret tt else Blocked.


(** ** What a conductor adapter pulled *)

Definition electron_ids (e : Electron) : string * string :=
  (Electron.ID e, Electron.AtomID e).

(** Every electron [conduct] takes off the receiver leaves a mark in the
    trace at the start of its iteration: the Complete call if it is
    invalid, the "electron received" emission if it is valid. The mark
    carries the electron's ID and AtomID. *)
Definition pull_mark (a : action) : option (string * string) :=
  match a with
  | AComplete _ p => Some (Properties.ElectronID p, Properties.AtomID p)
  | AEmit (VEvent ev) _ =>
      if String.eqb (Event.Message ev) "electron received"
      then Some (Event.ElectronID ev, Event.AtomID ev)
      else None
  | _ => None
  end.

(** The electrons a trace shows as pulled, in order. *)
Definition pulled (t : list action) : list (string * string) := omap pull_mark t.

(** A schedule that is undisturbed for its first [n] selects and has the
    context done, with no peer ready, from then on. *)
Definition cancelled_from (n : nat) : nat -> sel_env :=
  fun m => if Nat.ltb m n then mkSel false true false else mkSel true false false.

(** What a run of the forwarding loop over [stream] shows in its trace
    [t]: it pulled the first [k] electrons, and forwarded the valid ones
    among them - all of them, or all but the last one pulled. *)
Definition pulled_and_forwarded (E : Env) (c : Conductor) (w : world)
    (stream : list Electron) (t : list action) : Prop :=
  exists k,
    k <= length stream
    /\ pulled t = map electron_ids (firstn k stream)
    /\ (sends t = forwarded E c w (firstn k stream)
        \/ exists j e,
             k = S j /\ stream !! j = Some e /\ Valid E (VElectron e) = true
             /\ sends t = forwarded E c w (firstn j stream)).

(* ===================================================================== *)
(** * Part III: properties *)
(* ===================================================================== *)

(** ** Electron validity *)

Lemma nonempty_true (s : string) : Electron.nonempty s = true <-> s <> "".
Proof.
  unfold Electron.nonempty. destruct (String.eqb_spec s ""); split; intros; simpl in *; congruence.
Qed.

(** C1: an Electron is valid exactly when SenderID, ID and AtomID are all
    non-empty, and validity does not depend on Timeout, CopyState or
    Payload. *)
Theorem Validate_iff_ids_nonempty :
  forall e : Electron,
    (Electron.Validate e = true <->
       Electron.SenderID e <> "" /\ Electron.ID e <> "" /\ Electron.AtomID e <> "")
    /\ (forall (tm : option Z) (cs : bool) (p : list byte),
          Electron.Validate
            (Electron.mk (Electron.SenderID e) (Electron.ID e) (Electron.AtomID e) tm cs p)
          = Electron.Validate e).
Proof.
  intros e. split.
  - unfold Electron.Validate. rewrite !andb_true_iff, !nonempty_true. tauto.
  - reflexivity.
Qed.

(** The table of [TestElectron_Validate]. *)
Example Validate_test_table :
  map Electron.Validate
    [ Electron.noopelectron;
      Electron.zero;
      Electron.mk "test" "" "" None false [];
      Electron.mk "" "" "test" None false [];
      Electron.mk "" "test" "" None false [];
      Electron.mk "test" "" "test" None false [];
      Electron.mk "test" "test" "" None false [];
      Electron.mk "" "test" "test" None false [] ]
  = [true; false; false; false; false; false; false; false].
Proof. reflexivity. Qed.

(** ** Base64 *)

Module Base64Facts.
Import Base64.
Local Open Scope N_scope.

Lemma byte_of_to_N (b : byte) : byte_of_N (Byte.to_N b) = b.
Proof. unfold byte_of_N. now rewrite Byte.of_to_N. Qed.

Lemma to_N_lt (b : byte) : Byte.to_N b < 256.
Proof. pose proof (Byte.to_N_bounded b). lia. Qed.

Lemma below_64 (P : N -> Prop) :
  (forall k : nat, (k < 64)%nat -> P (N.of_nat k)) -> forall n, n < 64 -> P n.
Proof.
  intros H n Hn. rewrite <- (N2Nat.id n). apply H. lia.
Qed.

Lemma b64_value_char (n : N) : n < 64 -> b64_value (b64_char n) = Some n.
Proof.
  revert n. apply below_64. intros k Hk.
  do 64 (destruct k as [|k]; [reflexivity|]). lia.
Qed.

Lemma b64_value_pad : b64_value pad = None.
Proof. reflexivity. Qed.

Ltac euclid := zify; Z.to_euclidean_division_equations; lia.

Lemma sextet1_lt a : a < 256 -> sextet1 a < 64.
Proof. unfold sextet1. intros. euclid. Qed.
Lemma sextet2_lt a b : b < 256 -> sextet2 a b < 64.
Proof. unfold sextet2. intros. euclid. Qed.
Lemma sextet3_lt b c : c < 256 -> sextet3 b c < 64.
Proof. unfold sextet3. intros. euclid. Qed.
Lemma sextet4_lt c : sextet4 c < 64.
Proof. unfold sextet4. intros. euclid. Qed.

Lemma octet1_sextets (a b : byte) :
  octet1 (sextet1 (Byte.to_N a)) (sextet2 (Byte.to_N a) (Byte.to_N b)) = a.
Proof.
  unfold octet1, sextet1, sextet2.
  pose proof (to_N_lt a). pose proof (to_N_lt b).
  rewrite <- (byte_of_to_N a) at 3. f_equal. euclid.
Qed.

Lemma octet1_sextets_tail (a : byte) :
  octet1 (sextet1 (Byte.to_N a)) (sextet2 (Byte.to_N a) 0) = a.
Proof.
  unfold octet1, sextet1, sextet2.
  pose proof (to_N_lt a).
  rewrite <- (byte_of_to_N a) at 3. f_equal. euclid.
Qed.

Lemma octet2_sextets (a b c : byte) :
  octet2 (sextet2 (Byte.to_N a) (Byte.to_N b)) (sextet3 (Byte.to_N b) (Byte.to_N c)) = b.
Proof.
  unfold octet2, sextet2, sextet3.
  pose proof (to_N_lt a). pose proof (to_N_lt b). pose proof (to_N_lt c).
  rewrite <- (byte_of_to_N b) at 3. f_equal. euclid.
Qed.

Lemma octet2_sextets_tail (a b : byte) :
  octet2 (sextet2 (Byte.to_N a) (Byte.to_N b)) (sextet3 (Byte.to_N b) 0) = b.
Proof.
  unfold octet2, sextet2, sextet3.
  pose proof (to_N_lt a). pose proof (to_N_lt b).
  rewrite <- (byte_of_to_N b) at 3. f_equal. euclid.
Qed.

Lemma octet3_sextets (b c : byte) :
  octet3 (sextet3 (Byte.to_N b) (Byte.to_N c)) (sextet4 (Byte.to_N c)) = c.
Proof.
  unfold octet3, sextet3, sextet4.
  pose proof (to_N_lt b). pose proof (to_N_lt c).
  rewrite <- (byte_of_to_N c) at 3. f_equal. euclid.
Qed.

(** Induction over a list three elements at a time. *)
Lemma list_ind3 {A} (P : list A -> Prop) :
  P [] -> (forall a, P [a]) -> (forall a b, P [a; b]) ->
  (forall a b c l, P l -> P (a :: b :: c :: l)) ->
  forall l, P l.
Proof.
  intros H0 H1 H2 H3.
  fix IH 1. intros [|a [|b [|c l]]];
    [apply H0 | apply H1 | apply H2 | apply H3, IH].
Qed.

Ltac sextet_bound :=
  first [apply sextet1_lt | apply sextet2_lt | apply sextet3_lt | apply sextet4_lt];
  first [apply to_N_lt | reflexivity].

Lemma decode_encode (l : list byte) : decode (encode l) = Some l.
Proof.
  induction l as [|a|a b|a b c l IH] using list_ind3.
  - reflexivity.
  - cbn [encode decode].
    rewrite !b64_value_char by sextet_bound.
    rewrite b64_value_pad. change (is_pad pad) with true. cbv beta iota.
    now rewrite octet1_sextets_tail.
  - cbn [encode decode].
    rewrite !b64_value_char by sextet_bound.
    rewrite b64_value_pad. change (is_pad pad) with true. cbv beta iota.
    now rewrite octet1_sextets, octet2_sextets_tail.
  - cbn [encode decode].
    rewrite !b64_value_char by sextet_bound.
    rewrite IH. now rewrite octet1_sextets, octet2_sextets, octet3_sextets.
Qed.

End Base64Facts.

(** ** The payload codec *)

Lemma unquote_quoted (s : list byte) : Electron.unquote (Electron.quoted s) = Some s.
Proof.
  unfold Electron.unquote, Electron.quoted.
  change (Byte.eqb Electron.quote Electron.quote) with true. cbv iota.
  rewrite rev_app_distr. cbn [rev app].
  change (Byte.eqb Electron.quote Electron.quote) with true. cbv iota.
  now rewrite rev_involutive.
Qed.

Lemma decode_payload_base64 (p : list byte) :
  Electron.decode_payload (Electron.quoted (Base64.encode p)) = p.
Proof.
  unfold Electron.decode_payload.
  now rewrite unquote_quoted, Base64Facts.decode_encode.
Qed.

Lemma decode_payload_embedded (raw : list byte) :
  Electron.is_base64_string raw = false -> Electron.decode_payload raw = raw.
Proof.
  unfold Electron.is_base64_string, Electron.decode_payload.
  destruct (Electron.unquote raw) as [s|]; [|reflexivity].
  destruct (Base64.decode s); [discriminate | reflexivity].
Qed.

Lemma decode_encode_payload (p : list byte) :
  Electron.is_base64_string p = false ->
  match Electron.encode_payload p with
  | Some raw => Electron.decode_payload raw
  | None => []
  end = p.
Proof.
  intros H. unfold Electron.encode_payload.
  destruct p as [|b p]; [reflexivity|].
  destruct (JSON.valid (b :: p)).
  - now apply decode_payload_embedded.
  - apply decode_payload_base64.
Qed.

(** ** Quoted base64 texts are JSON strings *)

Module QuotedBase64.
Import Base64.

Lemma list_ind4 {A} (P : list A -> Prop) :
  P [] -> (forall a, P [a]) -> (forall a b, P [a; b]) -> (forall a b c, P [a; b; c]) ->
  (forall a b c d l, P l -> P (a :: b :: c :: d :: l)) ->
  forall l, P l.
Proof.
  intros H0 H1 H2 H3 H4.
  fix IH 1. intros [|a [|b [|c [|d l]]]];
    [apply H0 | apply H1 | apply H2 | apply H3 | apply H4, IH].
Qed.

Lemma decode_text (s : list byte) :
  forall p, decode s = Some p -> forallb text_char s = true /\ length p < length s + 2.
Proof.
  induction s as [|a|a b|a b c|a b c d s IH] using list_ind4; intros p H;
    try discriminate.
  - injection H as <-. cbn. split; [reflexivity | lia].
  - cbn [decode] in H. cbn [forallb]. unfold text_char.
    destruct (b64_value a); [|discriminate].
    destruct (b64_value b); [|discriminate].
    cbn [andb].
    destruct (b64_value c).
    + destruct (b64_value d).
      * destruct (decode s) as [tl|]; [|discriminate].
        injection H as <-. destruct (IH tl eq_refl) as [Hs Hl].
        split; [exact Hs | cbn [length]; lia].
      * destruct s; [|discriminate].
        destruct (is_pad d); [|discriminate]. injection H as <-.
        split; [reflexivity | cbn; lia].
    + destruct s; [|discriminate].
      destruct (is_pad c), (is_pad d); try discriminate. injection H as <-.
      split; [|cbn; lia]. cbn. now destruct (b64_value d).
Qed.

Lemma string_body_text_char (c : byte) (r : list byte) :
  text_char c = true -> JSON.string_body (c :: r) = JSON.string_body r.
Proof. destruct c; intros H; try discriminate H; reflexivity. Qed.

Lemma string_body_text (s rest : list byte) :
  forallb text_char s = true -> JSON.string_body (s ++ x22 :: rest) = Some rest.
Proof.
  induction s as [|c s IH]; intros H; [reflexivity|].
  cbn [forallb] in H. apply andb_prop in H as [Hc Hs].
  cbn [app]. rewrite (string_body_text_char c _ Hc). now apply IH.
Qed.

Lemma quoted_text_valid (s : list byte) :
  forallb text_char s = true -> JSON.valid (Electron.quoted s) = true.
Proof.
  intros H. unfold JSON.valid.
  replace (2 * length (Electron.quoted s) + 2) with (S (S (2 * length (Electron.quoted s))))
    by lia.
  unfold Electron.quoted, Electron.quote. cbn [JSON.value JSON.skip_ws JSON.is_ws].
  now rewrite (string_body_text s [] H).
Qed.

Lemma unquote_Some (raw s : list byte) :
  Electron.unquote raw = Some s -> raw = Electron.quoted s.
Proof.
  unfold Electron.unquote, Electron.quoted. destruct raw as [|c r]; [discriminate|].
  destruct (Byte.eqb c Electron.quote) eqn:Hc; [|discriminate].
  apply Byte.byte_dec_bl in Hc as ->.
  destruct (rev r) as [|c' m] eqn:Hr; [discriminate|].
  destruct (Byte.eqb c' Electron.quote) eqn:Hc'; [|discriminate].
  apply Byte.byte_dec_bl in Hc' as ->. intros [= <-].
  f_equal. rewrite <- (rev_involutive r), Hr. reflexivity.
Qed.

End QuotedBase64.



(** The two decoding rows of [TestElectron_UnmarshalJSON] and the payload
    row of [TestElectron_MarshalJSON]. *)
Example UnmarshalJSON_test_table :
  let w := Electron.mkWire "empty" "empty" "empty" None None None in
  Electron.UnmarshalJSON (w None) = Electron.noopelectron
  /\ Electron.UnmarshalJSON (w (Some Electron.pay)) = Electron.nonb64
  /\ Electron.UnmarshalJSON (w (Some (Electron.quoted Electron.pay64Encoded))) = Electron.nonb64
  /\ Electron.MarshalJSON Electron.nonb64 = w (Some Electron.pay)
  /\ Electron.MarshalJSON Electron.noopelectron = w None.
Proof. vm_compute. repeat split. Qed.


(** ** The monad and the event bus *)

Lemma bind_get {A} (f : world -> M A) (w : world) : (w' <- get ;; f w') w = f w w.
Proof. unfold bind, get. now destruct (f w w) as [[t w1] o]. Qed.

Lemma bind_tell {A} (t : list action) (k : M A) (w : world) :
  (tell t ;;; k) w = (t ++ trace_of (k w), world_of (k w), outcome_of (k w)).
Proof. unfold bind, tell. now destruct (k w) as [[t2 w2] o]. Qed.

Lemma bind_select {A} (E : Env) (b : bool) (f : sel -> M A) (w : world) :
  (s <- select E b ;; f s) w = f (select2 (sched E (sel_ix w)) b) (tick w).
Proof. unfold bind, select. fold (tick w). now destruct (f _ _) as [[t w1] o]. Qed.

Lemma bind_ret_tt {A} (m : M unit) (k : M A) (w : world) t w1 :
  m w = (t, w1, Ret tt) ->
  (m ;;; k) w = (t ++ trace_of (k w1), world_of (k w1), outcome_of (k w1)).
Proof. intros H. unfold bind. rewrite H. now destruct (k w1) as [[t2 w2] o]. Qed.

Lemma bind_ret_val {A B} (m : M A) (k : A -> M B) (w : world) t w1 a :
  m w = (t, w1, Ret a) ->
  bind m k w = (t ++ trace_of (k a w1), world_of (k a w1), outcome_of (k a w1)).
Proof. intros H. unfold bind. rewrite H. now destruct (k a w1) as [[t2 w2] o]. Qed.

Lemma bind_blocked {A B} (m : M A) (k : A -> M B) (w : world) t w1 :
  m w = (t, w1, Blocked) -> bind m k w = (t, w1, Blocked).
Proof. intros H. unfold bind. now rewrite H. Qed.

Lemma set_sel_ix_same (w : world) : set_sel_ix (sel_ix w) w = w.
Proof. now destruct w. Qed.

Lemma emits_completes t : Forall emits t -> completes t = [].
Proof. induction 1 as [|a t [v [d ->]] _ IH]; [reflexivity | exact IH]. Qed.

Lemma emits_sends t : Forall emits t -> sends t = [].
Proof. induction 1 as [|a t [v [d ->]] _ IH]; [reflexivity | exact IH]. Qed.

Lemma emits_spawns t : Forall emits t -> spawns t = [].
Proof. induction 1 as [|a t [v [d ->]] _ IH]; [reflexivity | exact IH]. Qed.

Lemma emits_execs t : Forall emits t -> execs t = [].
Proof. induction 1 as [|a t [v [d ->]] _ IH]; [reflexivity | exact IH]. Qed.

Lemma sends_app t1 t2 : sends (t1 ++ t2) = sends t1 ++ sends t2.
Proof. apply omap_app. Qed.

Lemma spawns_app t1 t2 : spawns (t1 ++ t2) = spawns t1 ++ spawns t2.
Proof. apply omap_app. Qed.

Lemma execs_app t1 t2 : execs (t1 ++ t2) = execs t1 ++ execs t2.
Proof. apply omap_app. Qed.

Lemma completes_app t1 t2 : completes (t1 ++ t2) = completes t1 ++ completes t2.
Proof. apply omap_app. Qed.

Section EventBus.

Variable E : Env.

Lemma event_send_spec (ch : chan) (evs : list value) (w : world) :
  exists t n o,
    event_send E ch evs w = (t, set_sel_ix n w, o)
    /\ Forall emits t
    /\ (o = Ret tt \/ (o = Blocked /\ exists v, In (AEmit v Stuck) t)).
Proof.
  revert w. induction evs as [|e rest IH]; intros w.
  - exists [], (sel_ix w), (Ret tt). rewrite set_sel_ix_same. repeat split; auto.
  - cbn [event_send]. destruct (Valid E e).
    + rewrite bind_select.
      destruct (select2 (sched E (sel_ix w)) true).
      * exists [AEmit e Cancelled], (S (sel_ix w)), (Ret tt).
        repeat split; auto. repeat constructor. now exists e, Cancelled.
      * rewrite bind_tell.
        destruct (IH (tick w)) as (t & n & o & Heq & Hem & Ho).
        rewrite Heq. exists (AEmit e (Delivered ch) :: t), n, o.
        repeat split; auto.
        -- constructor; auto. now exists e, (Delivered ch).
        -- destruct Ho as [->|[-> [v Hv]]]; [now left | right; split; auto].
           exists v. now right.
      * rewrite bind_tell. exists [AEmit e Stuck], (S (sel_ix w)), Blocked.
        repeat split.
        -- repeat constructor. now exists e, Stuck.
        -- right. split; auto. exists e. now left.
    + rewrite bind_tell.
      destruct (IH w) as (t & n & o & Heq & Hem & Ho).
      rewrite Heq. exists (AEmit e Rejected :: t), n, o.
      repeat split; auto.
      * constructor; auto. now exists e, Rejected.
      * destruct Ho as [->|[-> [v Hv]]]; [now left | right; split; auto].
        exists v. now right.
Qed.

Lemma event_spec (evs : list value) (w : world) :
  exists t n o,
    event E evs w = (t, set_sel_ix n w, o)
    /\ Forall emits t
    /\ (o = Ret tt \/ (o = Blocked /\ exists v, In (AEmit v Stuck) t)).
Proof.
  unfold event. rewrite bind_get. destruct (events (disp w)) as [ch|].
  - apply event_send_spec.
  - exists (map (fun e => AEmit e NoConsumer) evs), (sel_ix w), (Ret tt).
    rewrite set_sel_ix_same. repeat split; auto.
    induction evs as [|v evs IH]; constructor; [now exists v, NoConsumer | exact IH].
Qed.

(** One event: exactly one emission record. *)
Lemma event1_spec (v : value) (w : world) :
  exists d n o,
    event1 E v w = ([AEmit v d], set_sel_ix n w, o)
    /\ (o = Ret tt \/ (o = Blocked /\ d = Stuck)).
Proof.
  unfold event1, event. rewrite bind_get. destruct (events (disp w)) as [ch|].
  - cbn [event_send]. destruct (Valid E v).
    + rewrite bind_select. destruct (select2 (sched E (sel_ix w)) true).
      * exists Cancelled, (S (sel_ix w)), (Ret tt). auto.
      * exists (Delivered ch), (S (sel_ix w)), (Ret tt). auto.
      * exists Stuck, (S (sel_ix w)), Blocked. auto.
    + exists Rejected, (sel_ix w), (Ret tt). rewrite set_sel_ix_same. auto.
  - exists NoConsumer, (sel_ix w), (Ret tt). rewrite set_sel_ix_same. auto.
Qed.

End EventBus.

Section EmitOnly.

Variable E : Env.

Lemma emit_only_ret : emit_only (ret tt).
Proof.
  intros w. exists [], (sel_ix w), (Ret tt). rewrite set_sel_ix_same. auto.
Qed.

Lemma emit_only_event1 (v : value) : emit_only (event1 E v).
Proof.
  intros w. destruct (event1_spec E v w) as (d & n & o & Heq & Ho).
  exists [AEmit v d], n, o. split; [exact Heq|]. split.
  - repeat constructor. now exists v, d.
  - destruct Ho as [->|[-> _]]; auto.
Qed.

Lemma emit_only_bind (m k : M unit) : emit_only m -> emit_only k -> emit_only (m ;;; k).
Proof.
  intros Hm Hk w. destruct (Hm w) as (t1 & n1 & o1 & Heq1 & Hem1 & Ho1).
  destruct Ho1 as [->| ->].
  - destruct (Hk (set_sel_ix n1 w)) as (t2 & n2 & o2 & Heq2 & Hem2 & Ho2).
    rewrite (bind_ret_tt _ _ _ _ _ Heq1), Heq2. cbn.
    exists (t1 ++ t2), n2, o2. repeat split; auto. now apply Forall_app.
  - rewrite (bind_blocked _ _ _ _ _ Heq1). exists t1, n1, Blocked. auto.
Qed.

Lemma emit_only_run (m : M unit) (w : world) :
  emit_only m ->
  spawns (trace_of (m w)) = [] /\ sends (trace_of (m w)) = []
  /\ completes (trace_of (m w)) = [] /\ execs (trace_of (m w)) = []
  /\ disp (world_of (m w)) = disp w /\ heap (world_of (m w)) = heap w
  /\ next_loc (world_of (m w)) = next_loc w /\ next_chan (world_of (m w)) = next_chan w.
Proof.
  intros H. destruct (H w) as (t & n & o & -> & Hem & _). cbn.
  auto 10 using emits_spawns, emits_sends, emits_completes, emits_execs.
Qed.

End EmitOnly.

(** ** The event bus under shutdown *)

Lemma event_send_returns_when_done (E : Env) (ch : chan) (evs : list value) (w : world) :
  (forall n, sel_ix w <= n -> ctx_done (sched E n) = true) ->
  outcome_of (event_send E ch evs w) = Ret tt.
Proof.
  revert w. induction evs as [|e rest IH]; intros w Hdone; [reflexivity|].
  cbn [event_send]. destruct (Valid E e).
  - rewrite bind_select. unfold select2. rewrite (Hdone (sel_ix w)) by lia.
    destruct (peer_ready (sched E (sel_ix w)) && true); [destruct (coin _)|]; try reflexivity.
    rewrite bind_tell. cbn. apply IH. intros n Hn. apply Hdone. cbn in Hn. lia.
  - rewrite bind_tell. cbn. now apply IH.
Qed.



(** ** Registration *)

Section Registration.

Variable E : Env.

Lemma receiveConductor_invalid (c : Conductor) (w : world) :
  Valid E (VConductor c) = false ->
  receiveConductor E c w
  = ([], w, Ret (Some (Error (Event.mk "invalid conductor" "" "" (ID E (VConductor c))) None))).
Proof. intros H. unfold receiveConductor. now rewrite H. Qed.

Lemma receiveConductor_valid (c : Conductor) (w : world) :
  Valid E (VConductor c) = true ->
  receiveConductor E c w = ([AGo (GoConduct c)], w, Ret None).
Proof. intros H. unfold receiveConductor. now rewrite H. Qed.

Lemma receiveAtom_invalid (a : Atom) (w : world) :
  Valid E (VAtom a) = false ->
  receiveAtom E a w
  = ([], w, Ret (Some (Error (Event.mk "invalid atom" "" (ID E (VAtom a)) "") None))).
Proof. intros H. unfold receiveAtom. now rewrite H. Qed.

(** A valid atom: a new channel, its adapter goroutine, the table entry,
    and one emission. *)
Lemma receiveAtom_valid (a : Atom) (w : world) :
  Valid E (VAtom a) = true ->
  exists d n o,
    receiveAtom E a w
    = ([AGo (GoSplit a (next_chan w));
        AEmit (VEvent (Event.mk "registered electron channel" "" (ID E (VAtom a)) "")) d],
       mkWorld (mkAtomizer (electrons (disp w)) (registrations (disp w))
                           (<[ID E (VAtom a) := next_chan w]> (atoms (disp w)))
                           (events (disp w)))
               (heap w) (next_loc w) (S (next_chan w)) n (clk_ix w),
       o)
    /\ (o = Ret None \/ (o = Blocked /\ d = Stuck)).
Proof.
  intros H. unfold receiveAtom. rewrite H.
  erewrite bind_ret_val by reflexivity.
  erewrite bind_ret_val by reflexivity.
  lazymatch goal with |- context [bind (event1 E ?v) _ ?w'] =>
    destruct (event1_spec E v w') as (d & n & o & Heq & Ho) end.
  exists d, n. destruct Ho as [->|[-> ->]].
  - erewrite bind_ret_val by exact Heq. cbn. eauto.
  - erewrite bind_blocked by exact Heq. cbn. eauto.
Qed.

End Registration.

(** C10: [receiveConductor] and [receiveAtom] return an error exactly when
    the validator rejects their argument, and then nothing has happened:
    the world is as it was, no goroutine was started and the routing table
    has the entries it had. *)
Theorem receive_errors_iff_invalid (E : Env) (w : world) :
  (forall c : Conductor,
     let r := receiveConductor E c w in
     ((exists err, outcome_of r = Ret (Some err)) <-> Valid E (VConductor c) = false)
     /\ (Valid E (VConductor c) = false ->
         world_of r = w /\ spawns (trace_of r) = []
         /\ atoms (disp (world_of r)) = atoms (disp w)))
  /\ (forall a : Atom,
        let r := receiveAtom E a w in
        ((exists err, outcome_of r = Ret (Some err)) <-> Valid E (VAtom a) = false)
        /\ (Valid E (VAtom a) = false ->
            world_of r = w /\ spawns (trace_of r) = []
            /\ atoms (disp (world_of r)) = atoms (disp w))).
Proof.
  split.
  - intros c r. subst r. destruct (Valid E (VConductor c)) eqn:Hv.
    + rewrite (receiveConductor_valid E c w Hv). cbn. split; [|discriminate].
      split; [intros [err Herr]; discriminate | discriminate].
    + rewrite (receiveConductor_invalid E c w Hv). cbn. split; [|auto].
      split; [reflexivity | intros _; eauto].
  - intros a r. subst r. destruct (Valid E (VAtom a)) eqn:Hv.
    + destruct (receiveAtom_valid E a w Hv) as (d & n & o & -> & Ho). cbn.
      split; [|discriminate].
      split; [|discriminate].
      intros [err Herr]. destruct Ho as [->|[-> _]]; discriminate.
    + rewrite (receiveAtom_invalid E a w Hv). cbn. split; [|auto].
      split; [reflexivity | intros _; eauto].
Qed.

Lemma receive_errors_iff_invalid_witness :
  let E := example_env running ticking in
  (exists err, outcome_of (receiveConductor E nameless_conductor example_world) = Ret (Some err))
  /\ world_of (receiveAtom E (PtrAtom nameless_type 0) example_world) = example_world.
Proof.
  cbv zeta.
  destruct (receive_errors_iff_invalid (example_env running ticking) example_world)
    as [Hc Ha].
  split.
  - apply (Hc nameless_conductor). reflexivity.
  - apply (Ha (PtrAtom nameless_type 0)). reflexivity.
Defined.

(** C7: the routing table is a finite map, so an AtomID has at most one
    channel. Registering a valid atom binds its ID to the channel just made
    for the new adapter goroutine, whatever the ID was bound to before, and
    leaves every other key alone. *)
Theorem receiveAtom_replaces_channel (E : Env) (atom : Atom) (w : world)
    (Hvalid : Valid E (VAtom atom) = true) :
  let r := receiveAtom E atom w in
  let key := ID E (VAtom atom) in
  let table := atoms (disp (world_of r)) in
  table = <[key := next_chan w]> (atoms (disp w))
  /\ table !! key = Some (next_chan w)
  /\ spawns (trace_of r) = [GoSplit atom (next_chan w)]
  /\ (forall k, k <> key -> table !! k = atoms (disp w) !! k)
  /\ (forall k c1 c2, table !! k = Some c1 -> table !! k = Some c2 -> c1 = c2)
  /\ (forall old, atoms (disp w) !! key = Some old -> old < next_chan w ->
                  table !! key <> Some old)
  /\ next_chan (world_of r) = S (next_chan w).
Proof.
  intros r key table. subst r table.
  destruct (receiveAtom_valid E atom w Hvalid) as (d & n & o & -> & _). cbn.
  fold key. split; [reflexivity|]. split; [apply lookup_insert_eq|].
  split; [reflexivity|]. split; [intros k Hk; now apply lookup_insert_ne|].
  split; [congruence|]. split; [|reflexivity].
  intros old _ Hlt. rewrite lookup_insert_eq. intros [= Hold]. lia.
Qed.

Lemma receiveAtom_replaces_channel_witness :
  let E := example_env running ticking in
  let w := set_atoms {[ "counter" := 1%nat ]} example_world in
  atoms (disp w) !! "counter" = Some 1
  /\ atoms (disp (world_of (receiveAtom E counter_atom w))) !! "counter" = Some 3
  /\ spawns (trace_of (receiveAtom E counter_atom w)) = [GoSplit counter_atom 3].
Proof.
  cbv zeta. split; [reflexivity|].
  destruct (receiveAtom_replaces_channel (example_env running ticking) counter_atom
              (set_atoms {[ "counter" := 1%nat ]} example_world) eq_refl)
    as (_ & Hlook & Hgo & _).
  split; [exact Hlook | exact Hgo].
Defined.

(** ** The registration loop *)

Section RegistrationLoop.

Variable E : Env.

Lemma register_invalid (r : value) :
  Valid E r = false ->
  exists rest : M unit,
    emit_only rest
    /\ forall w,
         register E r w
         = (event1 E (VError (simple E ("invalid registration " ++ ID E r)%string None))
              ;;; rest) w.
Proof.
  intros Hv. unfold register. rewrite Hv.
  destruct r as [|e|ev|err|c|a|n];
    try (eexists; split; [|intros w; reflexivity]; apply emit_only_event1).
  - exists (ret tt). split; [apply emit_only_ret|]. intros w.
    unfold bind at 1 3.
    destruct (event1 E _ w) as [[t1 w1] [[]| |]]; try reflexivity.
    unfold bind. rewrite (receiveConductor_invalid E c w1 Hv). reflexivity.
  - exists (ret tt). split; [apply emit_only_ret|]. intros w.
    unfold bind at 1 3.
    destruct (event1 E _ w) as [[t1 w1] [[]| |]]; try reflexivity.
    unfold bind. rewrite (receiveAtom_invalid E a w1 Hv). reflexivity.
Qed.

End RegistrationLoop.

Lemma emit_only_ext (m m' : M unit) :
  (forall w, m w = m' w) -> emit_only m' -> emit_only m.
Proof. intros Heq H w. rewrite Heq. apply H. Qed.

Lemma bind_head (v : value) (E : Env) (k : M unit) (w : world) :
  exists d t, trace_of ((event1 E v ;;; k) w) = AEmit v d :: t.
Proof.
  destruct (event1_spec E v w) as (d & n & o & Heq & Ho). exists d.
  destruct Ho as [->|[-> _]].
  - rewrite (bind_ret_tt _ _ _ _ _ Heq). cbn. eauto.
  - rewrite (bind_blocked _ _ _ _ _ Heq). cbn. eauto.
Qed.

(** C6: an item taken off the registration channel that fails validation
    makes the loop emit the "invalid registration" event and nothing but
    events: no goroutine is started, the routing table stays as it was,
    and the loop goes on to the items behind it. *)
Theorem invalid_registration_skipped (E : Env) (r : value) (closes : bool)
    (rest : list value) (w : world)
    (Hinv : Valid E r = false)
    (Hsel : select2 (sched E (sel_ix w)) true = SelComm) :
  let it := receive_item E r (tick w) in
  (exists d t,
     trace_of it
     = AEmit (VError (simple E ("invalid registration " ++ ID E r)%string None)) d :: t)
  /\ Forall emits (trace_of it)
  /\ spawns (trace_of it) = []
  /\ atoms (disp (world_of it)) = atoms (disp w)
  /\ receive_loop E closes (r :: rest) w
     = (receive_item E r ;;; receive_loop E closes rest) (tick w).
Proof.
  intros it. subst it.
  destruct (register_invalid E r Hinv) as (rest0 & Hrest & Hreg).
  assert (Hem : emit_only (receive_item E r)).
  { apply emit_only_bind; [|apply emit_only_event1].
    eapply emit_only_ext; [exact Hreg|].
    apply emit_only_bind; [apply emit_only_event1 | exact Hrest]. }
  split; [|split; [|split; [|split]]].
  - unfold receive_item. unfold bind at 1. rewrite Hreg.
    destruct (bind_head (VError (simple E ("invalid registration " ++ ID E r)%string None))
                E rest0 (tick w)) as (d & t & Ht).
    exists d.
    destruct ((event1 E _ ;;; rest0) (tick w)) as [[t1 w1] [[]| |]]; cbn in Ht; subst t1.
    + destruct (event1 E _ w1) as [[t2 w2] o2]. cbn. eauto.
    + cbn. eauto.
    + cbn. eauto.
  - destruct (Hem (tick w)) as (t & n & o & -> & Ht & _). exact Ht.
  - apply (emit_only_run _ (tick w) Hem).
  - destruct (emit_only_run _ (tick w) Hem) as (_ & _ & _ & _ & Hd & _).
    now rewrite Hd.
  - cbn [receive_loop]. rewrite bind_select, Hsel. reflexivity.
Qed.

Lemma invalid_registration_skipped_witness :
  let E := example_env running ticking in
  let it := receive_item E (VConductor nameless_conductor) (tick example_world) in
  spawns (trace_of it) = [] /\ atoms (disp (world_of it)) = atoms (disp example_world).
Proof.
  cbv zeta.
  destruct (invalid_registration_skipped (example_env running ticking)
              (VConductor nameless_conductor) false [] example_world eq_refl eq_refl)
    as (_ & _ & Hgo & Htable & _).
  split; [exact Hgo | exact Htable].
Defined.

(** ** The distribution loop *)



(** ** The conductor adapter *)

Section Conduct.

Variable E : Env.

Lemma conduct_invalid_run (c : Conductor) (e : Electron) (w : world) :
  let p := failure_properties E c e (clk_ix w) in
  exists d n o,
    conduct_invalid E c e w
    = ([AComplete c p;
        AEmit (VError (Error (invalid_electron_error E c e) (complete E c p))) d],
       set_sel_ix n (set_clk_ix (S (S (clk_ix w))) w), o)
    /\ (o = Ret tt \/ (o = Blocked /\ d = Stuck)).
Proof.
  intros p. unfold conduct_invalid.
  erewrite bind_ret_val by reflexivity.
  erewrite bind_ret_val by reflexivity.
  rewrite bind_tell. fold p.
  lazymatch goal with |- context [event1 E ?v ?w'] =>
    destruct (event1_spec E v w') as (d & n & o & Heq & Ho); rewrite Heq end.
  exists d, n, o. split; [reflexivity | exact Ho].
Qed.

Lemma conduct_loop_head (c : Conductor) (closes : bool) (e : Electron)
    (rest : list Electron) (w : world) :
  select2 (sched E (sel_ix w)) true = SelComm ->
  conduct_loop E c closes (e :: rest) w
  = (if Valid E (VElectron e)
     then conduct_valid E c e (conduct_loop E c closes rest)
     else conduct_invalid E c e ;;; conduct_loop E c closes rest) (tick w).
Proof. intros Hsel. cbn [conduct_loop]. now rewrite bind_select, Hsel. Qed.

End Conduct.

(** C3, as the code has it: an invalid electron pulled by [conduct] leads
    to exactly one call of the conductor's Complete. Its Properties carry
    the "invalid electron" error and no result; Start and End are two
    successive readings of the clock, so End is not before Start on a
    monotonic clock and equals it only if the clock stood still. The error
    event is emitted and the loop goes on with the electrons behind it. *)
Theorem conduct_invalid_completes_once (E : Env) (c : Conductor) (closes : bool)
    (e : Electron) (rest : list Electron) (w : world)
    (Hsel : select2 (sched E (sel_ix w)) true = SelComm)
    (Hinv : Valid E (VElectron e) = false) :
  let it := conduct_invalid E c e (tick w) in
  (exists p d,
     trace_of it
     = [AComplete c p;
        AEmit (VError (Error (invalid_electron_error E c e) (complete E c p))) d]
     /\ completes (trace_of it) = [(c, p)]
     /\ Properties.Error p = Some (Error (invalid_electron_error E c e) None)
     /\ Properties.Result p = None
     /\ Properties.ElectronID p = Electron.ID e
     /\ Properties.AtomID p = Electron.AtomID e
     /\ Properties.Start p = clock E (clk_ix w)
     /\ Properties.End_ p = clock E (S (clk_ix w))
     /\ ((forall n, (clock E n <= clock E (S n))%Z) ->
         (Properties.Start p <= Properties.End_ p)%Z)
     /\ (outcome_of it = Ret tt \/ (outcome_of it = Blocked /\ d = Stuck)))
  /\ sends (trace_of it) = []
  /\ conduct_loop E c closes (e :: rest) w
     = (conduct_invalid E c e ;;; conduct_loop E c closes rest) (tick w).
Proof.
  intros it. subst it.
  destruct (conduct_invalid_run E c e (tick w)) as (d & n & o & Heq & Ho).
  rewrite Heq. cbn [trace_of outcome_of fst snd].
  split; [|split].
  - exists (failure_properties E c e (clk_ix w)), d.
    change (clk_ix (tick w)) with (clk_ix w).
    repeat (split; [reflexivity|]). split; [|exact Ho].
    intros Hmono. apply Hmono.
  - reflexivity.
  - rewrite (conduct_loop_head E c closes e rest w Hsel). now rewrite Hinv.
Qed.

Lemma conduct_invalid_completes_once_witness :
  let E := example_env running ticking in
  completes (trace_of (conduct_invalid E example_conductor sender_only (tick example_world)))
  = [(example_conductor, failure_properties E example_conductor sender_only 0)]
  /\ conduct_loop E example_conductor false [sender_only; echo_electron] example_world
     = (conduct_invalid E example_conductor sender_only
          ;;; conduct_loop E example_conductor false [echo_electron]) (tick example_world).
Proof.
  cbv zeta.
  destruct (conduct_invalid_completes_once (example_env running ticking) example_conductor
              false sender_only [echo_electron] example_world eq_refl eq_refl)
    as (_ & _ & Hloop).
  split; [reflexivity | exact Hloop].
Defined.

(** C3 as stated fails: Start and End come from two calls of [time.Now],
    and on a clock that advances between them they differ. *)
Lemma invalid_electron_start_differs_from_end :
  exists p,
    completes (trace_of (conduct (example_env running ticking) example_conductor
                                 ([sender_only], false) example_world))
    = [(example_conductor, p)]
    /\ Properties.Start p = 0%Z /\ Properties.End_ p = 1%Z
    /\ Properties.Start p <> Properties.End_ p.
Proof.
  eexists. split; [vm_compute; reflexivity|]. cbn. repeat split. discriminate.
Qed.

(** ** Forwarding, by example *)

(** Three electrons, the second invalid: the first and the third are
    forwarded, in that order. *)
Example conduct_forwards_example :
  let other := Electron.mk "s" "e3" "echo" None false [] in
  sends (trace_of (conduct (example_env running ticking) example_conductor
                           ([echo_electron; sender_only; other], true) example_world))
  = [(0, mkInstance echo_electron (Some example_conductor));
     (0, mkInstance other (Some example_conductor))].
Proof. vm_compute. reflexivity. Qed.

(** ** The atom adapter *)

Section Split.

Variable E : Env.

Lemma quiet_ret : quiet (ret tt).
Proof. intros w. exists [], w, (Ret tt). auto. Qed.

Lemma quiet_emit_only (m : M unit) : emit_only m -> quiet m.
Proof.
  intros H w. destruct (H w) as (t & n & o & Heq & Hem & Ho).
  exists t, (set_sel_ix n w), o. auto using emits_execs.
Qed.

Lemma quiet_bind (m k : M unit) : quiet m -> quiet k -> quiet (m ;;; k).
Proof.
  intros Hm Hk w. destruct (Hm w) as (t1 & w1 & o1 & Heq1 & Hx1 & Hl1 & [->| ->]).
  - destruct (Hk w1) as (t2 & w2 & o2 & Heq2 & Hx2 & Hl2 & Ho2).
    rewrite (bind_ret_tt _ _ _ _ _ Heq1), Heq2. cbn.
    exists (t1 ++ t2), w2, o2. rewrite execs_app, Hx1, Hx2. repeat split; auto. congruence.
  - rewrite (bind_blocked _ _ _ _ _ Heq1). exists t1, w1, Blocked. auto.
Qed.

Lemma quiet_put_heap (h : gmap loc (list fval)) : quiet (put_heap h).
Proof. intros w. exists [], (set_heap h w), (Ret tt). auto. Qed.

Lemma quiet_complete (c : Conductor) (p : Properties.t) : quiet (tell [AComplete c p]).
Proof. intros w. exists [AComplete c p], w, (Ret tt). auto. Qed.

Lemma quiet_get (f : world -> M unit) :
  (forall w0, quiet (f w0)) -> quiet (w <- get ;; f w).
Proof. intros H w. rewrite bind_get. apply H. Qed.

Create HintDb quiet.
#[local] Hint Resolve quiet_ret quiet_bind quiet_put_heap quiet_complete quiet_get
  quiet_emit_only emit_only_event1 : quiet.

Lemma quiet_exec_failed inst atom props err : quiet (exec_failed E inst atom props err).
Proof. unfold exec_failed. destruct (conductor inst); auto 6 with quiet. Qed.

(** [exec] records the hand-over and then neither hands over nor
    allocates. *)
Lemma exec_run (inst : instance) (atom : Atom) (w : world) :
  exists t w' o,
    exec E inst atom w = (AExec inst atom (snapshot atom (heap w)) :: t, w', o)
    /\ execs t = [] /\ next_loc w' = next_loc w /\ (o = Ret tt \/ o = Blocked).
Proof.
  unfold exec. rewrite bind_get, bind_tell.
  lazymatch goal with |- context [trace_of (?m w)] => assert (Hq : quiet m) end.
  { destruct (bond E inst atom) as [err|]; [auto with quiet|].
    apply quiet_get. intros w0.
    destruct (execute E inst atom (heap w0)) as [[h props] [err|]];
      auto using quiet_exec_failed with quiet. }
  destruct (Hq w) as (t & w' & o & -> & Hx & Hl & Ho). cbn. eauto 10.
Qed.

Lemma execs_cons_emit v d t : execs (AEmit v d :: t) = execs t.
Proof. reflexivity. Qed.

Lemma execs_cons_exec i a f t : execs (AExec i a f :: t) = mkHandoff i a f :: execs t.
Proof. reflexivity. Qed.

Lemma new_atom_run (T : struct_type) (p : loc) (w : world) :
  new_atom (PtrAtom T p) w
  = ([], mkWorld (disp w) (<[next_loc w := zero_value T]> (heap w)) (S (next_loc w))
                 (next_chan w) (sel_ix w) (clk_ix w),
     Ret (PtrAtom T (next_loc w))).
Proof. reflexivity. Qed.

(** One iteration hands over at most one atom: a pointer to a cell
    allocated in this iteration, holding the zero value of the
    prototype's type. *)
Lemma split_item_execs (T : struct_type) (p : loc) (inst : instance) (k : M unit)
    (w : world) :
  let handed := mkHandoff inst (PtrAtom T (next_loc w)) (Some (zero_value T)) in
  let t := trace_of (split_item E (PtrAtom T p) inst k w) in
  execs t = []
  \/ execs t = [handed]
  \/ exists w1, next_loc w1 = S (next_loc w) /\ execs t = handed :: execs (trace_of (k w1)).
Proof.
  intros handed t. subst t. unfold split_item.
  lazymatch goal with |- context [bind (event1 E ?v) _ w] =>
    destruct (event1_spec E v w) as (d & n & o & Heq & [->|[-> _]]) end;
    [|left; now rewrite (bind_blocked _ _ _ _ _ Heq)].
  rewrite (bind_ret_tt _ _ _ _ _ Heq).
  rewrite (bind_ret_val _ _ _ _ _ _ (new_atom_run T p (set_sel_ix n w))).
  remember (mkWorld _ _ _ _ _ _) as w0 eqn:Hw0.
  destruct (exec_run inst (PtrAtom T (next_loc (set_sel_ix n w))) w0)
    as (tx & wx & ox & Hex & Hxx & Hlx & Hox).
  assert (Hsnap : snapshot (PtrAtom T (next_loc (set_sel_ix n w))) (heap w0)
                  = Some (zero_value T)).
  { subst w0. cbn [snapshot heap]. apply lookup_insert_eq. }
  rewrite Hsnap in Hex. change (next_loc (set_sel_ix n w)) with (next_loc w) in Hex.
  fold handed in Hex.
  assert (Hnext : next_loc wx = S (next_loc w)) by (rewrite Hlx; now subst w0).
  destruct Hox as [->| ->].
  - right. right. exists wx. split; [exact Hnext|].
    rewrite (bind_ret_tt _ _ _ _ _ Hex). cbn [trace_of fst snd app].
    rewrite execs_cons_emit, execs_cons_exec, execs_app, Hxx. reflexivity.
  - right. left. rewrite (bind_blocked _ _ _ _ _ Hex). cbn [trace_of fst snd app].
    now rewrite execs_cons_emit, execs_cons_exec, Hxx.
Qed.

Lemma split_loop_execs (T : struct_type) (p : loc) (closes : bool)
    (stream : list instance) :
  forall w,
    let t := trace_of (split_loop E (PtrAtom T p) closes stream w) in
    exists k,
      map handed_instance (execs t) = firstn k stream
      /\ map handed_atom (execs t) = map (PtrAtom T) (seq (next_loc w) k)
      /\ Forall (fun h => handed_fields h = Some (zero_value T)) (execs t).
Proof.
  induction stream as [|inst rest IH]; intros w t; subst t.
  - exists 0. cbn [split_loop]. rewrite bind_select.
    destruct (select2 _ _); try (cbn; now auto).
    destruct (emit_only_run _ (tick w) (emit_only_event1 E
      (VError (Error (Event.mk "atom receiver closed" "" (ID E (VAtom (PtrAtom T p))) "")
                     None)))) as (_ & _ & _ & -> & _).
    cbn. auto.
  - cbn [split_loop]. rewrite bind_select.
    destruct (select2 _ _); [exists 0; cbn; now auto | | exists 0; cbn; now auto].
    destruct (split_item_execs T p inst (split_loop E (PtrAtom T p) closes rest) (tick w))
      as [-> | [-> | (w1 & Hw1 & ->)]].
    + exists 0. cbn. auto.
    + exists 1. cbn. auto.
    + destruct (IH w1) as (k & Hi & Ha & Hf). exists (S k).
      cbn [map firstn seq handed_instance handed_atom].
      rewrite Hi, Ha, Hw1. change (next_loc (tick w)) with (next_loc w).
      repeat split; auto.
Qed.

End Split.

Lemma handed_atoms_fresh (T : struct_type) (p n : loc) (hs : list handoff) :
  forall ls : list loc,
    map handed_atom hs = map (PtrAtom T) ls ->
    Forall (fun l => n <= l) ls ->
    p < n ->
    Forall (fun h => handed_atom h <> PtrAtom T p) hs.
Proof.
  induction hs as [|h hs IH]; intros ls Hmap Hls Hp; [constructor|].
  destruct ls as [|l ls]; [discriminate|].
  cbn [map] in Hmap. injection Hmap as Hh Hrest.
  inversion Hls as [|? ? Hl Hls']; subst.
  constructor; [|now apply (IH ls)].
  rewrite Hh. intros [= ->]. lia.
Qed.

Lemma NoDup_pointers (T : struct_type) (n k : nat) :
  NoDup (map (PtrAtom T) (seq n k)).
Proof.
  revert n. induction k as [|k IH]; intros n; cbn [seq map]; constructor; [|apply IH].
  intros Hin. apply list_elem_of_In, in_map_iff in Hin as (l & [= <-] & Hl).
  apply in_seq in Hl. lia.
Qed.




(** A prototype held by value makes [reflect.TypeOf(atom).Elem()] panic. *)
Lemma split_value_prototype_panics (E : Env) (T : struct_type) (fields : list fval)
    (inst : instance) (k : M unit) (w : world) :
  outcome_of (event1 E (VEvent (Event.mk "new instance of electron"
                                         (Electron.ID (electron inst))
                                         (ID E (VAtom (ValAtom T fields)))
                                         (ID E (value_of_conductor (conductor inst)))))
                     w) = Ret tt ->
  outcome_of (split_item E (ValAtom T fields) inst k w) = Panic.
Proof.
  intros Hev. unfold split_item.
  destruct (event1 E _ w) as [[t1 w1] o1] eqn:Heq. cbn in Hev. subst o1.
  rewrite (bind_ret_tt _ _ _ _ _ Heq). reflexivity.
Qed.

(** ** Scenarios *)

(** An invalid electron [{SenderID: "s"}] arrives: Complete is called with
    the validation error, and the error event, now wrapping what Complete
    returned, is emitted. *)
Example scenario_invalid_electron :
  let E := example_env running ticking in
  let ev := Event.mk "invalid electron" "" "" "bus" in
  trace_of (conduct E example_conductor ([sender_only], false) example_world)
  = [AComplete example_conductor
       (Properties.mk "" "" 0 1 (Some (Error ev None)) None);
     AEmit (VError (Error ev None)) (Delivered 2)].
Proof. vm_compute. reflexivity. Qed.

(** A valid electron for a registered atom travels from the conductor to
    the intake and from the intake to the atom's channel. *)
Example scenario_routed_electron :
  let E := example_env running ticking in
  let w := set_atoms {[ "echo" := 7%nat ]} example_world in
  let inst := mkInstance echo_electron (Some example_conductor) in
  sends (trace_of (conduct E example_conductor ([echo_electron], false) w)) = [(0, inst)]
  /\ sends (trace_of (distribute E ([inst], false) w)) = [(7, inst)]
  /\ completes (trace_of (distribute E ([inst], false) w)) = [].
Proof. vm_compute. repeat split. Qed.

(** Once the context is done and no peer is ready, every loop returns at
    its next select without taking anything. *)
Example scenario_shutdown :
  let E := example_env shut_down ticking in
  let inst := mkInstance echo_electron (Some example_conductor) in
  conduct E example_conductor ([echo_electron], false) example_world
    = ([], tick example_world, Ret tt)
  /\ distribute E ([inst], false) example_world = ([], tick example_world, Ret tt)
  /\ _split E counter_atom ([inst], false) example_world = ([], tick example_world, Ret tt)
  /\ receive E ([VAtom counter_atom], false) example_world
     = ([], tick example_world, Ret tt).
Proof. vm_compute. repeat split. Qed.

(** Registering a conductor and an atom starts one adapter each. *)
Example scenario_registration :
  let E := example_env running ticking in
  let r := receive E ([VConductor example_conductor; VAtom counter_atom], true)
                   example_world in
  spawns (trace_of r) = [GoConduct example_conductor; GoSplit counter_atom 3]
  /\ atoms (disp (world_of r)) !! "counter" = Some 3
  /\ outcome_of r = Ret tt.
Proof. vm_compute. repeat split. Qed.

(* ===================================================================== *)
(** * Part IV: further properties of the dispatcher *)
(* ===================================================================== *)

Lemma same_store_refl (w : world) : same_store w w.
Proof. repeat split. Qed.

Lemma same_store_trans (w1 w2 w3 : world) :
  same_store w1 w2 -> same_store w2 w3 -> same_store w1 w3.
Proof. unfold same_store. intros (?&?&?&?) (?&?&?&?). repeat split; congruence. Qed.

Lemma same_store_sel (n : nat) (w : world) : same_store w (set_sel_ix n w).
Proof. repeat split. Qed.

Lemma same_store_clk (n : nat) (w : world) : same_store w (set_clk_ix n w).
Proof. repeat split. Qed.

Lemma completes_cons_emit v d t : completes (AEmit v d :: t) = completes t.
Proof. reflexivity. Qed.

Lemma sends_cons_emit v d t : sends (AEmit v d :: t) = sends t.
Proof. reflexivity. Qed.

Lemma spawns_cons_emit v d t : spawns (AEmit v d :: t) = spawns t.
Proof. reflexivity. Qed.

Lemma trace_of_eq {A} t w (o : outcome A) : trace_of (t, w, o) = t.
Proof. reflexivity. Qed.

Lemma world_of_eq {A} t w (o : outcome A) : world_of (t, w, o) = w.
Proof. reflexivity. Qed.

Lemma outcome_of_eq {A} t w (o : outcome A) : outcome_of (t, w, o) = o.
Proof. reflexivity. Qed.

Lemma bind_panic {A B} (m : M A) (k : A -> M B) (w : world) t w1 :
  m w = (t, w1, Panic) -> bind m k w = (t, w1, Panic).
Proof. intros H. unfold bind. now rewrite H. Qed.

Ltac run_eq := rewrite ?trace_of_eq, ?world_of_eq, ?outcome_of_eq.
Ltac run_eq_in H := rewrite ?trace_of_eq, ?world_of_eq, ?outcome_of_eq in H.

(** Steps over an [event1] at the head of a bind: either it returned, or
    the run ends there. *)
Ltac step_event E :=
  lazymatch goal with
  | |- context [bind (event1 E ?v) _ ?w'] =>
      let d := fresh "d" in
      let n := fresh "n" in
      let o := fresh "o" in
      let Heq := fresh "Heq" in
      destruct (event1_spec E v w') as (d & n & o & Heq & [->|[-> _]]);
      [rewrite (bind_ret_tt _ _ _ _ _ Heq) | rewrite (bind_blocked _ _ _ _ _ Heq)]
  end.

(** ** Distribution *)

Section Distribution.

Variable E : Env.

Lemma omap_route_cons (table : gmap string chan) (inst : instance) (l : list instance) :
  omap (route table) (inst :: l)
  = match table !! Electron.AtomID (electron inst) with
    | Some ch => (ch, inst) :: omap (route table) l
    | None => omap (route table) l
    end.
Proof. unfold route at 1. cbn. unfold route at 1. now destruct (table !! _). Qed.

Lemma distribute_loop_run (closes : bool) (intake : list instance) :
  forall w, distribute_run E intake w (distribute_loop E closes intake w).
Proof.
  unfold distribute_run. induction intake as [|inst rest IH]; intros w.
  - cbn [distribute_loop]. rewrite bind_select.
    destruct (select2 _ _).
    + split; [now exists 0|]. repeat split.
    + lazymatch goal with |- context [event1 E ?v (tick w)] =>
        destruct (event1_spec E v (tick w)) as (d & n & o & -> & _) end.
      split; [now exists 0|]. repeat split.
    + split; [now exists 0|]. repeat split.
  - cbn [distribute_loop]. rewrite bind_select.
    destruct (select2 _ _);
      [split; [now exists 0|]; repeat split | | split; [now exists 0|]; repeat split].
    unfold distribute_item. rewrite bind_get. change (disp (tick w)) with (disp w).
    destruct (atoms (disp w) !! Electron.AtomID (electron inst)) as [achan|] eqn:Hlook.
    + step_event E; [|split; [now exists 0|]; repeat split].
      rewrite bind_select.
      destruct (select2 _ _);
        [split; [now exists 0|]; repeat split | | split; [now exists 0|]; repeat split].
      rewrite bind_tell.
      step_event E.
      * destruct (IH (set_sel_ix n0 (tick (set_sel_ix n (tick w)))))
          as ((k & Hk) & Hc & Hg & Hx & Hs).
        run_eq.
        split.
        { exists (S k). rewrite !sends_app, Hk. cbn [firstn].
          rewrite omap_route_cons, Hlook. reflexivity. }
        rewrite !completes_app, !spawns_app, !execs_app, Hc, Hg, Hx.
        repeat split; apply Hs.
      * run_eq. split; [|repeat split].
        exists 1. cbn [firstn]. rewrite omap_route_cons, Hlook. reflexivity.
    + step_event E; [|split; [now exists 0|]; repeat split].
      destruct (IH (set_sel_ix n (tick w))) as ((k & Hk) & Hc & Hg & Hx & Hs).
      run_eq.
      split.
      { exists (S k). rewrite sends_app, Hk. cbn [firstn].
        rewrite omap_route_cons, Hlook. reflexivity. }
      rewrite !completes_app, !spawns_app, !execs_app, Hc, Hg, Hx.
      repeat split; apply Hs.
Qed.

End Distribution.

(** X1: [distribute] sends each instance to the channel the routing table
    holds for its AtomID and skips the instances whose AtomID has none;
    what it sends is that routing of a prefix of the intake, in intake
    order. *)
Theorem distribute_routes_in_intake_order (E : Env) (intake : list instance * bool)
    (w : world) :
  exists k,
    sends (trace_of (distribute E intake w))
    = omap (route (atoms (disp w))) (firstn k (fst intake)).
Proof.
  unfold distribute.
  destruct (distribute_loop_run E (snd intake) (fst intake) w) as (Hsends & _).
  exact Hsends.
Qed.

(** X2: [distribute] only routes: over a whole run it never calls a
    conductor's Complete, starts no goroutine, hands nothing to the
    executor, and leaves the routing table, the heap and the allocators as
    they were. *)
Theorem distribute_only_routes (E : Env) (intake : list instance * bool) (w : world) :
  let r := distribute E intake w in
  completes (trace_of r) = [] /\ spawns (trace_of r) = [] /\ execs (trace_of r) = []
  /\ atoms (disp (world_of r)) = atoms (disp w)
  /\ same_store w (world_of r).
Proof.
  intros r. subst r. unfold distribute.
  destruct (distribute_loop_run E (snd intake) (fst intake) w)
    as (_ & Hc & Hg & Hx & Hs).
  repeat (split; [assumption|]). split; [|exact Hs].
  destruct Hs as (-> & _). reflexivity.
Qed.

(** ** Conductor adapters, over a whole run *)

Section ConductRun.

Variable E : Env.

Lemma completes_cons_complete c p t : completes (AComplete c p :: t) = (c, p) :: completes t.
Proof. reflexivity. Qed.

Lemma conduct_loop_completes (c : Conductor) (closes : bool) (stream : list Electron) :
  forall w,
    let r := conduct_loop E c closes stream w in
    (exists k,
       completes (trace_of r)
       = failure_reports E c (clk_ix w)
           (List.filter (fun e => negb (Valid E (VElectron e))) (firstn k stream)))
    /\ spawns (trace_of r) = [] /\ execs (trace_of r) = []
    /\ same_store w (world_of r).
Proof.
  induction stream as [|e rest IH]; intros w r; subst r.
  - cbn [conduct_loop]. rewrite bind_select.
    destruct (select2 _ _).
    + split; [now exists 0|]. repeat split.
    + lazymatch goal with |- context [event1 E ?v (tick w)] =>
        destruct (event1_spec E v (tick w)) as (d & n & o & -> & _) end.
      split; [now exists 0|]. repeat split.
    + split; [now exists 0|]. repeat split.
  - cbn [conduct_loop]. rewrite bind_select.
    destruct (select2 _ _);
      [split; [now exists 0|]; repeat split | | split; [now exists 0|]; repeat split].
    destruct (Valid E (VElectron e)) eqn:Hv.
    + unfold conduct_valid.
      step_event E; [|split; [now exists 0|]; repeat split].
      rewrite bind_select.
      destruct (select2 _ _);
        [split; [now exists 0|]; repeat split | | split; [now exists 0|]; repeat split].
      rewrite bind_get, bind_tell.
      step_event E; [|split; [now exists 0|]; repeat split].
      destruct (IH (set_sel_ix n0 (tick (set_sel_ix n (tick w)))))
        as ((k & Hk) & Hg & Hx & Hs).
      run_eq. split.
      { exists (S k). rewrite !completes_app, Hk. cbn [firstn List.filter].
        rewrite Hv. reflexivity. }
      rewrite !spawns_app, !execs_app, Hg, Hx. repeat split; apply Hs.
    + destruct (conduct_invalid_run E c e (tick w)) as (d & n & o & Heq & [->|[-> _]]).
      * rewrite (bind_ret_tt _ _ _ _ _ Heq).
        destruct (IH (set_sel_ix n (set_clk_ix (S (S (clk_ix (tick w)))) (tick w))))
          as ((k & Hk) & Hg & Hx & Hs).
        run_eq. split.
        { exists (S k). rewrite completes_app, Hk. cbn [firstn List.filter].
          rewrite Hv. reflexivity. }
        rewrite !spawns_app, !execs_app, Hg, Hx. repeat split; apply Hs.
      * rewrite (bind_blocked _ _ _ _ _ Heq). run_eq. split; [|repeat split].
        exists 1. cbn [firstn List.filter]. rewrite Hv. reflexivity.
Qed.

End ConductRun.

(** X3: over a whole run, [conduct] calls its conductor's Complete once
    for each invalid electron of a prefix of the receive stream, in receive
    order and for no other electron; the j-th call carries the j-th invalid
    electron's IDs, the "invalid electron" error, and the two clock
    readings taken for it. *)
Theorem conduct_completes_exactly_the_invalid (E : Env) (c : Conductor)
    (receiver : list Electron * bool) (w : world) :
  exists k,
    completes (trace_of (conduct E c receiver w))
    = failure_reports E c (clk_ix w)
        (List.filter (fun e => negb (Valid E (VElectron e))) (firstn k (fst receiver))).
Proof.
  unfold conduct.
  destruct (conduct_loop_completes E c (snd receiver) (fst receiver) w) as (H & _).
  exact H.
Qed.

(** X4: [conduct] starts no goroutine, hands nothing to the executor and
    leaves the routing table, the heap and the allocators as they were. *)
Theorem conduct_leaves_dispatcher_alone (E : Env) (c : Conductor)
    (receiver : list Electron * bool) (w : world) :
  let r := conduct E c receiver w in
  spawns (trace_of r) = [] /\ execs (trace_of r) = []
  /\ atoms (disp (world_of r)) = atoms (disp w)
  /\ same_store w (world_of r).
Proof.
  intros r. subst r. unfold conduct.
  destruct (conduct_loop_completes E c (snd receiver) (fst receiver) w)
    as (_ & Hg & Hx & Hs).
  repeat (split; [assumption|]). split; [|exact Hs].
  destruct Hs as (-> & _). reflexivity.
Qed.

(** ** The executor *)


(** ** Registration, by kind *)

Section RegisterRun.

Variable E : Env.

Lemma spawns_cons_go g t : spawns (AGo g :: t) = g :: spawns t.
Proof. reflexivity. Qed.

Lemma register_run (r : value) (w : world) :
  let res := register E r w in
  spawns (trace_of res) = registered_goroutines E r (next_chan w)
  /\ atoms (disp (world_of res)) = registered_table E r (next_chan w) (atoms (disp w))
  /\ next_chan (world_of res) = registered_next E r (next_chan w)
  /\ completes (trace_of res) = [] /\ execs (trace_of res) = []
  /\ heap (world_of res) = heap w /\ next_loc (world_of res) = next_loc w
  /\ events (disp (world_of res)) = events (disp w)
  /\ registrations (disp (world_of res)) = registrations (disp w)
  /\ electrons (disp (world_of res)) = electrons (disp w).
Proof.
  intros res. subst res. unfold register, registered_goroutines, registered_table,
    registered_next.
  destruct (Valid E r) eqn:Hv.
  - rewrite (bind_ret_tt (ret tt) _ w [] w eq_refl). cbn [app].
    destruct r as [|e|ev|err|c|a|n];
      try (lazymatch goal with |- context [event1 E ?v w] =>
             destruct (event1_spec E v w) as (d & n0 & o & -> & _) end;
           run_eq; repeat split).
    + rewrite (bind_ret_val _ _ _ _ _ _ (receiveConductor_valid E c w Hv)).
      lazymatch goal with |- context [event1 E ?v w] =>
        destruct (event1_spec E v w) as (d & n0 & o & -> & _) end.
      run_eq. repeat split.
    + destruct (receiveAtom_valid E a w Hv) as (d & n0 & o & Heq & [->|[-> _]]).
      * rewrite (bind_ret_val _ _ _ _ _ _ Heq).
        lazymatch goal with |- context [event1 E ?v ?w'] =>
          destruct (event1_spec E v w') as (d2 & n2 & o2 & -> & _) end.
        run_eq. repeat split.
      * rewrite (bind_blocked _ _ _ _ _ Heq). run_eq. repeat split.
  - step_event E; [|run_eq; destruct r; repeat split].
    destruct r as [|e|ev|err|c|a|n0];
      try (lazymatch goal with |- context [event1 E ?v ?w'] =>
             destruct (event1_spec E v w') as (d2 & n2 & o2 & -> & _) end;
           run_eq; repeat split).
    + rewrite (bind_ret_val _ _ _ _ _ _ (receiveConductor_invalid E c _ Hv)).
      run_eq. repeat split.
    + rewrite (bind_ret_val _ _ _ _ _ _ (receiveAtom_invalid E a _ Hv)).
      run_eq. repeat split.
Qed.

End RegisterRun.

(** X6: [register] dispatches on the kind of the value. A valid conductor
    starts one [conduct] goroutine; a valid atom starts one [_split]
    goroutine on a channel made for it and binds the atom's ID to that
    channel; an invalid value, or a value that is neither, starts nothing
    and leaves the routing table as it was. [register] itself never calls
    Complete. *)
Theorem register_starts_the_adapter_of_its_kind (E : Env) (r : value) (w : world) :
  let res := register E r w in
  spawns (trace_of res) = registered_goroutines E r (next_chan w)
  /\ atoms (disp (world_of res)) = registered_table E r (next_chan w) (atoms (disp w))
  /\ completes (trace_of res) = [].
Proof.
  intros res. subst res.
  destruct (register_run E r w) as (Hg & Ht & _ & Hc & _). auto.
Qed.

Lemma registered_table_sound (E : Env) (r : value) (w w' : world) :
  atoms (disp w') = registered_table E r (next_chan w) (atoms (disp w)) ->
  next_chan w' = registered_next E r (next_chan w) ->
  table_allocated w -> table_injective w ->
  table_allocated w' /\ table_injective w'
  /\ (forall k, is_Some (atoms (disp w) !! k) -> is_Some (atoms (disp w') !! k))
  /\ next_chan w <= next_chan w'.
Proof.
  unfold table_allocated, table_injective, registered_table, registered_next.
  intros Ht Hn Halloc Hinj. rewrite Ht, Hn.
  destruct r as [|e|ev|err|c|a|n]; try (repeat split; eauto; fail).
  destruct (Valid E (VAtom a)); [|repeat split; eauto].
  set (key := ID E (VAtom a)).
  split; [|split; [|split]].
  - intros k ch. destruct (decide (key = k)) as [<-|Hne].
    + rewrite lookup_insert_eq. intros [= <-]. lia.
    + rewrite lookup_insert_ne by exact Hne. intros H. apply Halloc in H. lia.
  - intros k1 k2 ch.
    destruct (decide (key = k1)) as [<-|Hne1], (decide (key = k2)) as [<-|Hne2];
      rewrite ?lookup_insert_eq, ?lookup_insert_ne by assumption.
    + reflexivity.
    + intros [= <-] H. apply Halloc in H. lia.
    + intros H [= <-]. apply Halloc in H. lia.
    + apply Hinj.
  - intros k Hk. destruct (decide (key = k)) as [<-|Hne].
    + rewrite lookup_insert_eq. eauto.
    + now rewrite lookup_insert_ne.
  - lia.
Qed.

(** X7: [register] keeps the routing table sound. If every channel of the
    table was made by the dispatcher and no two AtomIDs share a channel,
    the same holds afterwards, and no AtomID that had a channel is left
    without one. *)
Theorem register_keeps_channels_distinct (E : Env) (r : value) (w : world)
    (Halloc : table_allocated w) (Hinj : table_injective w) :
  let w' := world_of (register E r w) in
  table_allocated w' /\ table_injective w'
  /\ (forall k, is_Some (atoms (disp w) !! k) -> is_Some (atoms (disp w') !! k)).
Proof.
  intros w'. subst w'.
  destruct (register_run E r w) as (_ & Ht & Hn & _).
  destruct (registered_table_sound E r w _ Ht Hn Halloc Hinj) as (H1 & H2 & H3 & _).
  auto.
Qed.

Lemma register_keeps_channels_distinct_witness :
  let E := example_env running ticking in
  table_injective (world_of (register E (VAtom counter_atom) example_world))
  /\ atoms (disp (world_of (register E (VAtom counter_atom) example_world))) !! "counter"
     = Some 3.
Proof.
  cbv zeta. split; [|vm_compute; reflexivity].
  apply (register_keeps_channels_distinct (example_env running ticking)
           (VAtom counter_atom) example_world).
  - intros k ch H. cbn in H. rewrite lookup_empty in H. discriminate.
  - intros k1 k2 ch H. cbn in H. rewrite lookup_empty in H. discriminate.
Defined.

(** ** The registration loop, over a whole run *)

Section ReceiveRun.

Variable E : Env.

Lemma omap_cons_match {A B} (f : A -> option B) (x : A) (l : list A) :
  omap f (x :: l) = match f x with Some y => y :: omap f l | None => omap f l end.
Proof. reflexivity. Qed.

Lemma adapter_registered (r : value) (n : chan) :
  map adapter (registered_goroutines E r n)
  = match started E r with Some x => [x] | None => [] end.
Proof.
  unfold registered_goroutines, started.
  destruct r; try reflexivity; now destruct (Valid E _).
Qed.

Lemma table_kept_same (w w' : world) :
  atoms (disp w') = atoms (disp w) -> next_chan w' = next_chan w -> table_kept w w'.
Proof.
  unfold table_kept, table_allocated, table_injective. intros -> ->. auto.
Qed.

Lemma table_kept_trans (w1 w2 w3 : world) :
  table_kept w1 w2 -> table_kept w2 w3 -> table_kept w1 w3.
Proof.
  unfold table_kept. intros H12 H23 Ha Hi.
  destruct (H12 Ha Hi) as (Ha2 & Hi2 & Hk2).
  destruct (H23 Ha2 Hi2) as (Ha3 & Hi3 & Hk3). auto.
Qed.

Lemma register_table_kept (r : value) (w : world) :
  table_kept w (world_of (register E r w)).
Proof.
  intros Ha Hi. destruct (register_run E r w) as (_ & Ht & Hn & _).
  destruct (registered_table_sound E r w _ Ht Hn Ha Hi) as (H1 & H2 & H3 & _). auto.
Qed.

Ltac receive_stops :=
  split; [now exists 0|]; split; [reflexivity|]; split; [reflexivity|];
  now apply table_kept_same.

Lemma receive_loop_run (closes : bool) (regs : list value) :
  forall w,
    let r := receive_loop E closes regs w in
    (exists k, map adapter (spawns (trace_of r)) = omap (started E) (firstn k regs))
    /\ completes (trace_of r) = [] /\ execs (trace_of r) = []
    /\ table_kept w (world_of r).
Proof.
  induction regs as [|r rest IH]; intros w res; subst res.
  - cbn [receive_loop]. rewrite bind_select.
    destruct (select2 _ _).
    + receive_stops.
    + lazymatch goal with |- context [event1 E ?v (tick w)] =>
        destruct (event1_spec E v (tick w)) as (d & n & o & -> & _) end.
      receive_stops.
    + receive_stops.
  - cbn [receive_loop]. rewrite bind_select.
    destruct (select2 _ _);
      [receive_stops |
      | receive_stops].
    pose proof (register_run E r (tick w)) as (Hg & _ & _ & Hc & Hx & _).
    pose proof (register_table_kept r (tick w)) as Hkept.
    apply (f_equal (map adapter)) in Hg. rewrite adapter_registered in Hg.
    destruct (register E r (tick w)) as [[t1 w1] [[]| |]] eqn:Hreg;
      unfold trace_of, world_of in Hg, Hc, Hx, Hkept; cbn [fst snd] in Hg, Hc, Hx, Hkept.
    + pose proof (bind_ret_tt (register E r)
                    (event1 E (makeEvent E ("registered " ++ ID E r)%string))
                    _ _ _ Hreg) as Hitem.
      destruct (event1_spec E (makeEvent E ("registered " ++ ID E r)%string) w1)
        as (d & n & o & Hev & [->|[-> _]]);
        rewrite Hev in Hitem; run_eq_in Hitem.
      * rewrite (bind_ret_tt (receive_item E r) _ _ _ _ Hitem). run_eq.
        destruct (IH (set_sel_ix n w1)) as ((k & Hk) & Hc2 & Hx2 & Hk2).
        split; [|split; [|split]].
        -- exists (S k). rewrite !spawns_app, !map_app, Hg, Hk. cbn [firstn].
           rewrite omap_cons_match. destruct (started E r); reflexivity.
        -- rewrite !completes_app, Hc, Hc2. reflexivity.
        -- rewrite !execs_app, Hx, Hx2. reflexivity.
        -- apply (table_kept_trans _ w1); [exact Hkept|].
           apply (table_kept_trans _ (set_sel_ix n w1)); [|exact Hk2].
           now apply table_kept_same.
      * rewrite (bind_blocked (receive_item E r) _ _ _ _ Hitem). run_eq.
        split; [|split; [|split]].
        -- exists 1. rewrite spawns_app, map_app, Hg. cbn [firstn].
           rewrite omap_cons_match. destruct (started E r); reflexivity.
        -- rewrite completes_app, Hc. reflexivity.
        -- rewrite execs_app, Hx. reflexivity.
        -- apply (table_kept_trans _ w1); [exact Hkept|]. now apply table_kept_same.
    + rewrite (bind_blocked (receive_item E r) _ _ _ _
                 (bind_blocked (register E r) _ _ _ _ Hreg)). run_eq.
      split; [|split; [exact Hc|split; [exact Hx|exact Hkept]]].
      exists 1. rewrite Hg. cbn [firstn]. rewrite omap_cons_match.
      destruct (started E r); reflexivity.
    + rewrite (bind_panic (receive_item E r) _ _ _ _
                 (bind_panic (register E r) _ _ _ _ Hreg)). run_eq.
      split; [|split; [exact Hc|split; [exact Hx|exact Hkept]]].
      exists 1. rewrite Hg. cbn [firstn]. rewrite omap_cons_match.
      destruct (started E r); reflexivity.
Qed.

End ReceiveRun.

Lemma receive_run (E : Env) (incoming : list value * bool) (w : world) :
  let r := receive E incoming w in
  (exists k, map adapter (spawns (trace_of r)) = omap (started E) (firstn k (fst incoming)))
  /\ completes (trace_of r) = [] /\ execs (trace_of r) = []
  /\ table_kept w (world_of r)
  /\ (registrations (disp w) = None ->
      spawns (trace_of r) = [] /\ atoms (disp (world_of r)) = atoms (disp w)).
Proof.
  intros r. subst r. unfold receive. rewrite bind_get.
  destruct (registrations (disp w)) as [ch|].
  - destruct (receive_loop_run E (snd incoming) (fst incoming) w) as (H1 & H2 & H3 & H4).
    repeat (split; [assumption|]). discriminate.
  - lazymatch goal with |- context [event1 E ?v w] =>
      destruct (event1_spec E v w) as (d & n & o & -> & _) end.
    run_eq. split; [now exists 0|]. split; [reflexivity|]. split; [reflexivity|].
    split; [now apply table_kept_same|]. intros _. split; reflexivity.
Qed.

(** X8: the registration loop starts adapters for exactly the valid
    conductors and atoms of a prefix of the registration stream, one each
    and in the order they arrived; it never calls Complete. Without a
    registrations channel it starts nothing and leaves the routing table as
    it was. *)
Theorem receive_starts_adapters_in_order (E : Env) (incoming : list value * bool)
    (w : world) :
  let r := receive E incoming w in
  (exists k, map adapter (spawns (trace_of r)) = omap (started E) (firstn k (fst incoming)))
  /\ completes (trace_of r) = []
  /\ (registrations (disp w) = None ->
      spawns (trace_of r) = [] /\ atoms (disp (world_of r)) = atoms (disp w)).
Proof.
  intros r. subst r.
  destruct (receive_run E incoming w) as (H1 & H2 & _ & _ & H5). auto.
Qed.

Lemma receive_starts_adapters_in_order_witness :
  let E := example_env running ticking in
  let w := mkWorld (mkAtomizer 0 None ∅ (Some 2)) ∅ 0 3 0 0 in
  spawns (trace_of (receive E ([VAtom counter_atom], true) w)) = []
  /\ atoms (disp (world_of (receive E ([VAtom counter_atom], true) w))) = ∅.
Proof.
  cbv zeta.
  destruct (receive_starts_adapters_in_order (example_env running ticking)
              ([VAtom counter_atom], true)
              (mkWorld (mkAtomizer 0 None ∅ (Some 2)) ∅ 0 3 0 0)) as (_ & _ & H).
  apply H. reflexivity.
Defined.

(** X9: over a whole run of the registration loop the routing table stays
    sound: if its channels were all made by the dispatcher and no two
    AtomIDs shared one, that still holds when the loop stops, and every
    AtomID that had a channel still has one. *)
Theorem receive_keeps_channels_distinct (E : Env) (incoming : list value * bool)
    (w : world) (Halloc : table_allocated w) (Hinj : table_injective w) :
  let w' := world_of (receive E incoming w) in
  table_allocated w' /\ table_injective w'
  /\ (forall k, is_Some (atoms (disp w) !! k) -> is_Some (atoms (disp w') !! k)).
Proof.
  intros w'. subst w'.
  destruct (receive_run E incoming w) as (_ & _ & _ & Hkept & _).
  exact (Hkept Halloc Hinj).
Qed.

Lemma receive_keeps_channels_distinct_witness :
  let E := example_env running ticking in
  let other := PtrAtom (mkStruct "echo" []) 0 in
  let w' := world_of (receive E ([VAtom counter_atom; VAtom other; VAtom counter_atom], true)
                              example_world) in
  table_injective w'
  /\ atoms (disp w') !! "counter" = Some 5 /\ atoms (disp w') !! "echo" = Some 4.
Proof.
  cbv zeta. split; [|vm_compute; split; reflexivity].
  apply (receive_keeps_channels_distinct (example_env running ticking)
           ([VAtom counter_atom; VAtom (PtrAtom (mkStruct "echo" []) 0);
             VAtom counter_atom], true) example_world).
  - intros k ch H. cbn in H. rewrite lookup_empty in H. discriminate.
  - intros k1 k2 ch H. cbn in H. rewrite lookup_empty in H. discriminate.
Defined.

(** ** The event bus, over a list of events *)

Section EventOrder.

Variable E : Env.

Lemma delivered_cons_delivered v ch t :
  delivered (AEmit v (Delivered ch) :: t) = v :: delivered t.
Proof. reflexivity. Qed.

Lemma event_send_delivered (ch : chan) (evs : list value) :
  forall w, exists k,
    delivered (trace_of (event_send E ch evs w)) = List.filter (Valid E) (firstn k evs).
Proof.
  induction evs as [|e rest IH]; intros w; [now exists 0|].
  cbn [event_send]. destruct (Valid E e) eqn:Hv.
  - rewrite bind_select. destruct (select2 _ _); [now exists 0| |].
    + rewrite bind_tell. run_eq. destruct (IH (tick w)) as [k Hk].
      exists (S k). cbn [app firstn List.filter]. rewrite Hv, delivered_cons_delivered, Hk.
      reflexivity.
    + rewrite bind_tell. now exists 0.
  - rewrite bind_tell. run_eq. destruct (IH w) as [k Hk].
    exists (S k). cbn [app firstn List.filter]. rewrite Hv. exact Hk.
Qed.

Lemma event_send_all_delivered (ch : chan) (evs : list value) :
  forall w,
    (forall n, sel_ix w <= n -> select2 (sched E n) true = SelComm) ->
    delivered (trace_of (event_send E ch evs w)) = List.filter (Valid E) evs
    /\ outcome_of (event_send E ch evs w) = Ret tt.
Proof.
  induction evs as [|e rest IH]; intros w Hrun; [split; reflexivity|].
  cbn [event_send]. destruct (Valid E e) eqn:Hv.
  - rewrite bind_select, (Hrun (sel_ix w)) by lia.
    rewrite bind_tell. run_eq.
    destruct (IH (tick w)) as [Hd Ho]; [intros n Hn; apply Hrun; cbn in Hn; lia|].
    cbn [app List.filter]. rewrite Hv, delivered_cons_delivered, Hd. auto.
  - rewrite bind_tell. run_eq. destruct (IH w Hrun) as [Hd Ho].
    cbn [app List.filter]. rewrite Hv. auto.
Qed.

End EventOrder.

(** X10: [event] puts events on the events channel in the order given:
    what it delivers is the valid events of a prefix of its arguments,
    and all of the valid ones when every select finds the consumer ready
    and takes the send. With no events channel it delivers nothing,
    consumes no select and leaves the world as it was. *)
Theorem event_delivers_in_order (E : Env) (evs : list value) (w : world) :
  let r := event E evs w in
  (exists k, delivered (trace_of r) = List.filter (Valid E) (firstn k evs))
  /\ (events (disp w) = None -> delivered (trace_of r) = [] /\ world_of r = w
                                /\ outcome_of r = Ret tt)
  /\ (events (disp w) <> None ->
      (forall n, sel_ix w <= n -> select2 (sched E n) true = SelComm) ->
      delivered (trace_of r) = List.filter (Valid E) evs /\ outcome_of r = Ret tt).
Proof.
  intros r. subst r. unfold event. rewrite bind_get.
  destruct (events (disp w)) as [ch|].
  - split; [apply event_send_delivered|]. split; [discriminate|].
    intros _ Hrun. now apply event_send_all_delivered.
  - assert (Hnone : delivered (map (fun e => AEmit e NoConsumer) evs) = [])
      by (induction evs as [|e evs IH]; [reflexivity | exact IH]).
    unfold tell. run_eq. rewrite Hnone.
    split; [now exists 0|]. split; [auto|]. intros H. now destruct H.
Qed.

Lemma event_delivers_in_order_witness :
  let E := example_env running ticking in
  let hello := VEvent (Event.mk "hello" "" "" "") in
  let blank := VEvent (Event.mk "" "" "" "") in
  delivered (trace_of (event E [hello; blank; VNil; hello] example_world)) = [hello; hello].
Proof.
  cbv zeta.
  destruct (event_delivers_in_order (example_env running ticking)
              [VEvent (Event.mk "hello" "" "" ""); VEvent (Event.mk "" "" "" ""); VNil;
               VEvent (Event.mk "hello" "" "" "")] example_world) as (_ & _ & H).
  destruct H as [H _]; [discriminate | intros n _; reflexivity | exact H].
Defined.

(** ** Cancellation *)

Section Shutdown.

Variable E : Env.

Lemma done_from_le (n m : nat) : done_from E n -> n <= m -> done_from E m.
Proof. intros H Hle k Hk. apply H. lia. Qed.

(** A step that returns without a select. *)
Lemma rwd_step {A} (m : M A) :
  (forall w, exists t w' a, m w = (t, w', Ret a) /\ sel_ix w' = sel_ix w) ->
  returns_when_done E m.
Proof.
  intros H w _. destruct (H w) as (t & w' & a & -> & Hix).
  exists a. run_eq. split; [reflexivity | lia].
Qed.

Lemma rwd_ret {A} (a : A) : returns_when_done E (ret a).
Proof. apply rwd_step. intros w. now exists [], w, a. Qed.

Lemma rwd_tell (t : list action) : returns_when_done E (tell t).
Proof. apply rwd_step. intros w. now exists t, w, tt. Qed.

Lemma rwd_get : returns_when_done E get.
Proof. apply rwd_step. intros w. now exists [], w, w. Qed.

Lemma rwd_now : returns_when_done E (now E).
Proof. apply rwd_step. intros w. now eexists [], _, _. Qed.

Lemma rwd_make_chan : returns_when_done E make_chan.
Proof. apply rwd_step. intros w. now eexists [], _, _. Qed.

Lemma rwd_alloc (v : list fval) : returns_when_done E (alloc v).
Proof. apply rwd_step. intros w. now eexists [], _, _. Qed.

Lemma rwd_put_heap (h : gmap loc (list fval)) : returns_when_done E (put_heap h).
Proof. apply rwd_step. intros w. now eexists [], _, _. Qed.

Lemma rwd_bind {A B} (m : M A) (f : A -> M B) :
  returns_when_done E m -> (forall a, returns_when_done E (f a)) ->
  returns_when_done E (bind m f).
Proof.
  intros Hm Hf w Hd. destruct (Hm w Hd) as (a & Ho & Hix).
  destruct (m w) as [[t1 w1] o1] eqn:Hmw. unfold outcome_of, world_of in Ho, Hix.
  cbn [fst snd] in Ho, Hix. subst o1.
  rewrite (bind_ret_val _ _ _ _ _ _ Hmw). run_eq.
  destruct (Hf a w1 (done_from_le _ _ Hd Hix)) as (b & Hb & Hix2).
  exists b. split; [exact Hb | lia].
Qed.

(** Under cancellation a select takes one of its two cases. *)
Lemma rwd_select {A} (b : bool) (f : sel -> M A) :
  returns_when_done E (f SelDone) -> returns_when_done E (f SelComm) ->
  returns_when_done E (s <- select E b ;; f s).
Proof.
  intros Hdone Hcomm w Hd. rewrite bind_select.
  assert (Hd' : done_from E (sel_ix (tick w))) by (apply (done_from_le _ _ Hd); cbn; lia).
  unfold select2. rewrite (Hd (sel_ix w)) by lia.
  destruct (peer_ready (sched E (sel_ix w)) && b); [destruct (coin _)|].
  - destruct (Hdone (tick w) Hd') as (a & Ho & Hix). exists a. split; [exact Ho|].
    cbn in Hix. lia.
  - destruct (Hcomm (tick w) Hd') as (a & Ho & Hix). exists a. split; [exact Ho|].
    cbn in Hix. lia.
  - destruct (Hdone (tick w) Hd') as (a & Ho & Hix). exists a. split; [exact Ho|].
    cbn in Hix. lia.
Qed.

(** Peels one constructor of goroutine code off a [returns_when_done]
    goal; [leaf] closes the calls of methods already dealt with. *)
Ltac rwd_with leaf :=
  repeat
    (lazymatch goal with
     | |- returns_when_done _ (bind (select _ _) _) => apply rwd_select
     | |- returns_when_done _ (bind _ _) => apply rwd_bind; [|intros ?; cbv beta]
     | |- returns_when_done _ (ret _) => apply rwd_ret
     | |- returns_when_done _ (tell _) => apply rwd_tell
     | |- returns_when_done _ get => apply rwd_get
     | |- returns_when_done _ (now _) => apply rwd_now
     | |- returns_when_done _ make_chan => apply rwd_make_chan
     | |- returns_when_done _ (alloc _) => apply rwd_alloc
     | |- returns_when_done _ (put_heap _) => apply rwd_put_heap
     | |- returns_when_done _ (match ?x with _ => _ end) => destruct x
     | |- _ => first [assumption | leaf]
     end).

Lemma rwd_event_send (ch : chan) (evs : list value) : returns_when_done E (event_send E ch evs).
Proof. induction evs as [|e rest IH]; cbn [event_send]; rwd_with fail. Qed.

Lemma rwd_event1 (v : value) : returns_when_done E (event1 E v).
Proof. unfold event1, event. rwd_with ltac:(apply rwd_event_send). Qed.

Lemma rwd_conduct_loop (c : Conductor) (closes : bool) (stream : list Electron) :
  returns_when_done E (conduct_loop E c closes stream).
Proof.
  induction stream as [|e rest IH]; cbn [conduct_loop];
    unfold conduct_valid, conduct_invalid; rwd_with ltac:(apply rwd_event1).
Qed.

Lemma rwd_distribute_loop (closes : bool) (intake : list instance) :
  returns_when_done E (distribute_loop E closes intake).
Proof.
  induction intake as [|inst rest IH]; cbn [distribute_loop];
    unfold distribute_item; rwd_with ltac:(apply rwd_event1).
Qed.

Lemma rwd_set_atoms (f : world -> gmap string chan) :
  returns_when_done E (fun w => ([], set_atoms (f w) w, Ret tt)).
Proof. apply rwd_step. intros w. now eexists [], _, _. Qed.

Lemma rwd_register (r : value) : returns_when_done E (register E r).
Proof.
  unfold register, receiveConductor, receiveAtom, split.
  rwd_with ltac:(first [apply rwd_event1 | apply rwd_set_atoms]).
Qed.

Lemma rwd_receive_loop (closes : bool) (regs : list value) :
  returns_when_done E (receive_loop E closes regs).
Proof.
  induction regs as [|r rest IH]; cbn [receive_loop]; unfold receive_item;
    rwd_with ltac:(first [apply rwd_event1 | apply rwd_register]).
Qed.

Lemma rwd_exec (inst : instance) (atom : Atom) : returns_when_done E (exec E inst atom).
Proof. unfold exec, exec_failed. rwd_with ltac:(apply rwd_event1). Qed.

Lemma rwd_split_loop (T : struct_type) (p : loc) (closes : bool) (stream : list instance) :
  returns_when_done E (split_loop E (PtrAtom T p) closes stream).
Proof.
  induction stream as [|inst rest IH]; cbn [split_loop];
    unfold split_item, new_atom;
    rwd_with ltac:(first [apply rwd_event1 | apply rwd_exec]).
Qed.

End Shutdown.

(** X11: once the context is done, every loop of the dispatcher returns:
    [conduct], [distribute], [receive] and the [_split] of a pointer
    prototype cannot stay blocked on a channel or on an emission, whatever
    they are fed and whatever else the scheduler decides. (Calls into
    conductors and atoms are taken to return.) *)
Theorem loops_return_when_done (E : Env) (w : world)
    (Hdone : done_from E (sel_ix w)) :
  (forall c receiver, outcome_of (conduct E c receiver w) = Ret tt)
  /\ (forall intake, outcome_of (distribute E intake w) = Ret tt)
  /\ (forall incoming, outcome_of (receive E incoming w) = Ret tt)
  /\ (forall T p receiver, outcome_of (_split E (PtrAtom T p) receiver w) = Ret tt).
Proof.
  split; [|split; [|split]].
  - intros c receiver. unfold conduct.
    destruct (rwd_conduct_loop E c (snd receiver) (fst receiver) w Hdone) as ([] & -> & _).
    reflexivity.
  - intros intake. unfold distribute.
    destruct (rwd_distribute_loop E (snd intake) (fst intake) w Hdone) as ([] & -> & _).
    reflexivity.
  - intros incoming. unfold receive. rewrite bind_get.
    destruct (registrations (disp w)).
    + destruct (rwd_receive_loop E (snd incoming) (fst incoming) w Hdone) as ([] & -> & _).
      reflexivity.
    + lazymatch goal with |- context [event1 E ?v w] =>
        destruct (rwd_event1 E v w Hdone) as ([] & -> & _) end.
      reflexivity.
  - intros T p receiver. unfold _split.
    destruct (rwd_split_loop E T p (snd receiver) (fst receiver) w Hdone) as ([] & -> & _).
    reflexivity.
Qed.

Lemma loops_return_when_done_witness :
  let E := example_env done_but_busy ticking in
  let inst := mkInstance echo_electron (Some example_conductor) in
  sends (trace_of (conduct E example_conductor ([echo_electron; sender_only], false)
                           example_world)) = [(0, inst)]
  /\ outcome_of (conduct E example_conductor ([echo_electron; sender_only], false)
                         example_world) = Ret tt
  /\ outcome_of (_split E counter_atom ([inst], false) example_world) = Ret tt.
Proof.
  cbv zeta. split; [vm_compute; reflexivity|].
  destruct (loops_return_when_done (example_env done_but_busy ticking) example_world)
    as (Hc & _ & _ & Hs); [intros n _; reflexivity|].
  split; [apply Hc | apply Hs].
Defined.

(** X12: a prototype registered by value instead of by pointer makes its
    adapter panic at the first instance it receives (after the "new
    instance" event), before anything is handed to the executor. *)
Theorem split_by_value_prototype_panics (E : Env) (T : struct_type)
    (fields : list fval) (inst : instance) (rest : list instance) (closes : bool)
    (w : world)
    (Hsel : select2 (sched E (sel_ix w)) true = SelComm)
    (Hev : outcome_of
             (event1 E (VEvent (Event.mk "new instance of electron"
                                         (Electron.ID (electron inst))
                                         (ID E (VAtom (ValAtom T fields)))
                                         (ID E (value_of_conductor (conductor inst)))))
                     (tick w)) = Ret tt) :
  let r := _split E (ValAtom T fields) (inst :: rest, closes) w in
  outcome_of r = Panic /\ execs (trace_of r) = [] /\ completes (trace_of r) = [].
Proof.
  intros r. subst r. unfold _split. cbn [fst snd split_loop].
  rewrite bind_select, Hsel. unfold split_item.
  lazymatch goal with |- context [bind (event1 E ?v) _ ?w'] =>
    destruct (event1_spec E v w') as (d & n & o & Heq & _) end.
  rewrite Heq, outcome_of_eq in Hev. subst o.
  rewrite (bind_ret_tt _ _ _ _ _ Heq). run_eq. repeat split.
Qed.

Lemma split_by_value_prototype_panics_witness :
  let E := example_env running ticking in
  let inst := mkInstance echo_electron (Some example_conductor) in
  outcome_of (_split E (ValAtom counter_type [FInt 5]) ([inst], false) example_world)
  = Panic.
Proof.
  cbv zeta.
  apply (split_by_value_prototype_panics (example_env running ticking) counter_type
           [FInt 5] (mkInstance echo_electron (Some example_conductor)) [] false
           example_world eq_refl eq_refl).
Defined.

(** ** Construction *)

Section Init.

Variable E : Env.

Lemma register_all_run (declared : list value) :
  forall w,
    let r := register_all E declared w in
    (exists k, map adapter (spawns (trace_of r)) = omap (started E) (firstn k declared))
    /\ completes (trace_of r) = []
    /\ table_kept w (world_of r)
    /\ electrons (disp (world_of r)) = electrons (disp w)
    /\ registrations (disp (world_of r)) = registrations (disp w)
    /\ events (disp (world_of r)) = events (disp w).
Proof.
  induction declared as [|r rest IH]; intros w res; subst res.
  - cbn [register_all]. unfold ret. run_eq. split; [now exists 0|].
    split; [reflexivity|]. split; [now apply table_kept_same|]. auto.
  - cbn [register_all].
    pose proof (register_run E r w) as (Hg & _ & _ & Hc & _ & _ & _ & Hev & Hre & Hel).
    pose proof (register_table_kept E r w) as Hkept.
    apply (f_equal (map adapter)) in Hg. rewrite adapter_registered in Hg.
    destruct (register E r w) as [[t1 w1] [[]| |]] eqn:Hreg;
      unfold trace_of, world_of in Hg, Hc, Hkept, Hev, Hre, Hel;
      cbn [fst snd] in Hg, Hc, Hkept, Hev, Hre, Hel.
    + rewrite (bind_ret_tt _ _ _ _ _ Hreg). run_eq.
      destruct (IH w1) as ((k & Hk) & Hc2 & Hk2 & Hel2 & Hre2 & Hev2).
      split; [|split; [|split; [|split; [|split]]]]; try congruence.
      * exists (S k). rewrite spawns_app, map_app, Hg, Hk. cbn [firstn].
        rewrite omap_cons_match. destruct (started E r); reflexivity.
      * rewrite completes_app, Hc, Hc2. reflexivity.
      * exact (table_kept_trans _ _ _ Hkept Hk2).
    + rewrite (bind_blocked _ _ _ _ _ Hreg). run_eq.
      split; [|auto]. exists 1. rewrite Hg. cbn [firstn]. rewrite omap_cons_match.
      destruct (started E r); reflexivity.
    + rewrite (bind_panic _ _ _ _ _ Hreg). run_eq.
      split; [|auto]. exists 1. rewrite Hg. cbn [firstn]. rewrite omap_cons_match.
      destruct (started E r); reflexivity.
Qed.

Lemma ensure_chan_run (c : option chan) (w : world) :
  ensure_chan c w
  = ([], mkWorld (disp w) (heap w) (next_loc w)
                 (match c with Some _ => next_chan w | None => S (next_chan w) end)
                 (sel_ix w) (clk_ix w),
     Ret (match c with Some ch => ch | None => next_chan w end)).
Proof. destruct c, w; reflexivity. Qed.

Lemma bind_ret_end {A} (m : M unit) (a : A) (w : world) :
  trace_of ((m ;;; ret a) w) = trace_of (m w)
  /\ world_of ((m ;;; ret a) w) = world_of (m w).
Proof.
  unfold bind, ret. destruct (m w) as [[t w1] [[]| |]]; run_eq; auto.
  split; [apply app_nil_r | reflexivity].
Qed.

(** [init] up to its registrations: the channels it settles on. *)
Lemma init_run (a : atomizer_fields) (declared : list value) (w : world) :
  exists el re n,
    let w0 := mkWorld (mkAtomizer el (Some re)
                         (match f_atoms a with Some m => m | None => ∅ end)
                         (f_events a))
                      (heap w) (next_loc w) n (sel_ix w) (clk_ix w) in
    trace_of (init E a declared w) = trace_of (register_all E declared w0)
    /\ world_of (init E a declared w) = world_of (register_all E declared w0)
    /\ (forall ch, f_electrons a = Some ch -> el = ch)
    /\ (f_electrons a = None -> el = next_chan w)
    /\ (forall ch, f_registrations a = Some ch -> re = ch)
    /\ (f_electrons a = None -> f_registrations a = None -> re <> el).
Proof.
  unfold init.
  rewrite (bind_ret_val _ _ _ _ _ _ (ensure_chan_run (f_electrons a) w)).
  rewrite (bind_ret_val _ _ _ _ _ _ (ensure_chan_run (f_bonded a) _)).
  rewrite (bind_ret_val _ _ _ _ _ _ (ensure_chan_run (f_registrations a) _)).
  lazymatch goal with |- context [bind (set_disp ?dd) _ ?w'] =>
    rewrite (bind_ret_tt (set_disp dd) _ w' [] _ eq_refl) end.
  run_eq. cbn [app].
  lazymatch goal with |- context [bind (register_all E declared) (fun _ => ret ?b) ?w'] =>
    destruct (bind_ret_end (register_all E declared) b w') as [-> ->] end.
  cbn [disp heap next_loc next_chan sel_ix clk_ix].
  eexists _, _, _. cbv zeta. split; [reflexivity|]. split; [reflexivity|].
  split; [intros ch ->; reflexivity|]. split; [intros ->; reflexivity|].
  split; [intros ch ->; reflexivity|].
  intros -> ->. destruct (f_bonded a); lia.
Qed.

End Init.

(** X13: [init] keeps every channel the struct already has and makes the
    missing ones, each a channel of its own; afterwards the registrations
    channel is never nil. The declared registrations go through
    [register] in order, so the adapters started are those of the valid
    conductors and atoms of a prefix of the declarations; and a dispatcher
    built from a struct with no routing table ends with a sound one. *)
Theorem init_prepares_the_dispatcher (E : Env) (a : atomizer_fields)
    (declared : list value) (w : world) :
  let r := init E a declared w in
  let d := disp (world_of r) in
  (forall ch, f_electrons a = Some ch -> electrons d = ch)
  /\ (forall ch, f_registrations a = Some ch -> registrations d = Some ch)
  /\ registrations d <> None
  /\ events d = f_events a
  /\ (f_electrons a = None -> electrons d = next_chan w)
  /\ (f_electrons a = None -> f_registrations a = None ->
      registrations d <> Some (electrons d))
  /\ (exists k, map adapter (spawns (trace_of r)) = omap (started E) (firstn k declared))
  /\ (f_atoms a = None -> table_allocated (world_of r) /\ table_injective (world_of r)).
Proof.
  intros r d. subst d r.
  destruct (init_run E a declared w)
    as (el & re & n & -> & -> & Hel1 & Hel2 & Hre1 & Hre2).
  destruct (register_all_run E declared
              (mkWorld (mkAtomizer el (Some re)
                          (match f_atoms a with Some m => m | None => ∅ end)
                          (f_events a))
                       (heap w) (next_loc w) n (sel_ix w) (clk_ix w)))
    as (Hk & _ & Hkept & Hel & Hre & Hev).
  rewrite Hel, Hre, Hev. cbn [disp electrons registrations events].
  split; [exact Hel1|]. split; [intros ch Hch; now rewrite (Hre1 ch Hch)|].
  split; [discriminate|]. split; [reflexivity|]. split; [exact Hel2|].
  split; [intros H1 H2 [= H]; now apply (Hre2 H1 H2)|].
  split; [exact Hk|].
  intros Hnone. rewrite Hnone in Hkept |- *.
  destruct Hkept as (H1 & H2 & _); [| |split; assumption].
  - intros k ch H. cbn in H. rewrite lookup_empty in H. discriminate.
  - intros k1 k2 ch H. cbn in H. rewrite lookup_empty in H. discriminate.
Qed.

Lemma init_prepares_the_dispatcher_witness :
  let E := example_env running ticking in
  let r := init E zero_fields [VConductor example_conductor; VAtom counter_atom]
                example_world in
  spawns (trace_of r) = [GoConduct example_conductor; GoSplit counter_atom 6]
  /\ electrons (disp (world_of r)) = 3
  /\ registrations (disp (world_of r)) = Some 5
  /\ outcome_of r = Ret 4
  /\ table_injective (world_of r).
Proof.
  cbv zeta. repeat (split; [vm_compute; reflexivity|]).
  apply (init_prepares_the_dispatcher (example_env running ticking) zero_fields
           [VConductor example_conductor; VAtom counter_atom] example_world).
  reflexivity.
Defined.

(** ** Undisturbed runs *)

Section Live.

Variable E : Env.

Lemma live_from_le (n m : nat) : live_from E n -> n <= m -> live_from E m.
Proof. intros H Hle k Hk. apply H. lia. Qed.

Lemma live_select (w : world) (b : bool) :
  live_from E (sel_ix w) ->
  select2 (sched E (sel_ix w)) b = if b then SelComm else SelBlock.
Proof.
  intros H. destruct (H (sel_ix w)) as [Hd Hp]; [lia|].
  unfold select2. rewrite Hd, Hp. now destruct b.
Qed.

Lemma live_tick (w : world) : live_from E (sel_ix w) -> live_from E (sel_ix (tick w)).
Proof. intros H. apply (live_from_le _ _ H). cbn. lia. Qed.

Lemma event1_live (v : value) (w : world) :
  live_from E (sel_ix w) ->
  exists d n,
    event1 E v w = ([AEmit v d], set_sel_ix n w, Ret tt) /\ live_from E n.
Proof.
  intros Hlive. unfold event1, event. rewrite bind_get.
  destruct (events (disp w)) as [ch|].
  - cbn [event_send]. destruct (Valid E v).
    + rewrite bind_select, (live_select w true Hlive).
      exists (Delivered ch), (S (sel_ix w)). split; [reflexivity|].
      apply (live_from_le _ _ Hlive). lia.
    + exists Rejected, (sel_ix w). rewrite set_sel_ix_same. auto.
  - exists NoConsumer, (sel_ix w). rewrite set_sel_ix_same. auto.
Qed.

(** Steps over an [event1] at the head of a bind in an undisturbed run:
    [n] is the schedule position it leaves, [Hn] that the run is still
    undisturbed from there. *)
Ltac live_event H n Hn :=
  lazymatch goal with
  | |- context [bind (event1 E ?v) _ ?w'] =>
      let d := fresh "d" in
      let Heq := fresh "Heq" in
      destruct (event1_live v w' H) as (d & n & Heq & Hn);
      rewrite (bind_ret_tt _ _ _ _ _ Heq)
  end.

Lemma conduct_invalid_live (c : Conductor) (e : Electron) (w : world) :
  live_from E (sel_ix w) ->
  exists d n,
    conduct_invalid E c e w
    = ([AComplete c (failure_properties E c e (clk_ix w));
        AEmit (VError (Error (invalid_electron_error E c e)
                             (complete E c (failure_properties E c e (clk_ix w))))) d],
       set_sel_ix n (set_clk_ix (S (S (clk_ix w))) w), Ret tt)
    /\ live_from E n.
Proof.
  intros Hlive. unfold conduct_invalid.
  erewrite bind_ret_val by reflexivity.
  erewrite bind_ret_val by reflexivity.
  rewrite bind_tell. fold (failure_properties E c e (clk_ix w)).
  lazymatch goal with |- context [event1 E ?v ?w'] =>
    destruct (event1_live v w' Hlive) as (d & n & -> & Hn) end.
  exists d, n. split; [reflexivity | exact Hn].
Qed.

Lemma conduct_loop_live (c : Conductor) (closes : bool) (stream : list Electron) :
  forall w,
    live_from E (sel_ix w) ->
    let r := conduct_loop E c closes stream w in
    sends (trace_of r) = forwarded E c w stream
    /\ completes (trace_of r)
       = failure_reports E c (clk_ix w)
           (List.filter (fun e => negb (Valid E (VElectron e))) stream)
    /\ outcome_of r = end_of_stream closes.
Proof.
  induction stream as [|e rest IH]; intros w Hlive r; subst r.
  - cbn [conduct_loop]. rewrite bind_select, (live_select w closes Hlive).
    destruct closes; [|repeat split].
    destruct (event1_live
                (VError (Error (Event.mk "receiver closed" (Electron.ID Electron.zero) ""
                                         (ID E (VConductor c))) None))
                (tick w) (live_tick w Hlive)) as (d & n & -> & _).
    repeat split.
  - cbn [conduct_loop]. rewrite bind_select, (live_select w true Hlive).
    pose proof (live_tick w Hlive) as Hlive1.
    destruct (Valid E (VElectron e)) eqn:Hv.
    + unfold conduct_valid. live_event Hlive1 n1 Hn1.
      rewrite bind_select, (live_select (set_sel_ix n1 (tick w)) true Hn1).
      rewrite bind_get, bind_tell.
      live_event (live_tick (set_sel_ix n1 (tick w)) Hn1) n2 Hn2.
      destruct (IH (set_sel_ix n2 (tick (set_sel_ix n1 (tick w)))) Hn2)
        as (Hs & Hc & Ho).
      run_eq. rewrite !sends_app, !completes_app, Hs, Hc, Ho.
      unfold forwarded. cbn [List.filter]. rewrite Hv. repeat split.
    + destruct (conduct_invalid_live c e (tick w) Hlive1) as (d & n1 & Heq & Hn1).
      rewrite (bind_ret_tt _ _ _ _ _ Heq).
      destruct (IH (set_sel_ix n1 (set_clk_ix (S (S (clk_ix (tick w)))) (tick w))) Hn1)
        as (Hs & Hc & Ho).
      run_eq. rewrite !sends_app, !completes_app, Hs, Hc, Ho.
      unfold forwarded. cbn [List.filter]. rewrite Hv. repeat split.
Qed.

Lemma distribute_loop_live (closes : bool) (intake : list instance) :
  forall w,
    live_from E (sel_ix w) ->
    let r := distribute_loop E closes intake w in
    sends (trace_of r) = omap (route (atoms (disp w))) intake
    /\ outcome_of r = end_of_stream closes.
Proof.
  induction intake as [|inst rest IH]; intros w Hlive r; subst r.
  - cbn [distribute_loop]. rewrite bind_select, (live_select w closes Hlive).
    destruct closes; [|repeat split].
    lazymatch goal with |- context [event1 E ?v (tick w)] =>
      destruct (event1_live v (tick w) (live_tick w Hlive)) as (d & n & -> & _) end.
    repeat split.
  - cbn [distribute_loop]. rewrite bind_select, (live_select w true Hlive).
    pose proof (live_tick w Hlive) as Hlive1.
    unfold distribute_item. rewrite bind_get. change (disp (tick w)) with (disp w).
    rewrite omap_route_cons.
    destruct (atoms (disp w) !! Electron.AtomID (electron inst)) as [achan|].
    + live_event Hlive1 n1 Hn1.
      rewrite bind_select, (live_select (set_sel_ix n1 (tick w)) true Hn1).
      rewrite bind_tell.
      live_event (live_tick (set_sel_ix n1 (tick w)) Hn1) n2 Hn2.
      destruct (IH (set_sel_ix n2 (tick (set_sel_ix n1 (tick w)))) Hn2) as (Hs & Ho).
      run_eq. rewrite !sends_app, Hs, Ho. repeat split.
    + live_event Hlive1 n1 Hn1.
      destruct (IH (set_sel_ix n1 (tick w)) Hn1) as (Hs & Ho).
      run_eq. rewrite !sends_app, Hs, Ho. repeat split.
Qed.

End Live.

(** ** Registration and distribution together *)

(** X14: an electron for an atom that was just registered is routed to
    that atom's adapter: registering a valid atom starts its [_split]
    goroutine on a new channel, and with the routing table [register]
    leaves, [distribute] sends an instance whose AtomID is the atom's ID on
    that very channel and on no other; while the context is live and every
    peer is ready the instance is sent, exactly once. *)
Theorem registered_atom_is_routed (E : Env) (a : Atom) (inst : instance) (closes : bool)
    (w : world)
    (Hvalid : Valid E (VAtom a) = true)
    (Hid : Electron.AtomID (electron inst) = ID E (VAtom a)) :
  let reg := register E (VAtom a) w in
  spawns (trace_of reg) = [GoSplit a (next_chan w)]
  /\ forall w2,
       atoms (disp w2) = atoms (disp (world_of reg)) ->
       let t := trace_of (distribute E ([inst], closes) w2) in
       (exists k, sends t = firstn k [(next_chan w, inst)])
       /\ (live_from E (sel_ix w2) -> sends t = [(next_chan w, inst)]).
Proof.
  intros reg. subst reg.
  destruct (register_run E (VAtom a) w) as (Hg & Ht & _).
  unfold registered_goroutines, registered_table in Hg, Ht. rewrite Hvalid in Hg, Ht.
  split; [exact Hg|]. intros w2 Hw2 t. subst t.
  assert (Hroute : omap (route (atoms (disp w2))) [inst] = [(next_chan w, inst)]).
  { rewrite omap_route_cons, Hw2, Ht, Hid, lookup_insert_eq. reflexivity. }
  unfold distribute. cbn [fst snd]. split.
  - destruct (distribute_loop_run E closes [inst] w2) as ((k & Hk) & _).
    rewrite Hk. exists k. destruct k as [|k]; [reflexivity|].
    cbn [firstn]. destruct k; exact Hroute.
  - intros Hlive.
    destruct (distribute_loop_live E closes [inst] w2 Hlive) as (Hs & _).
    rewrite Hs. exact Hroute.
Qed.

Lemma registered_atom_is_routed_witness :
  let E := example_env running ticking in
  let inst := mkInstance (Electron.mk "s" "e9" "counter" None false [])
                         (Some example_conductor) in
  let w1 := world_of (register E (VAtom counter_atom) example_world) in
  spawns (trace_of (register E (VAtom counter_atom) example_world))
  = [GoSplit counter_atom 3]
  /\ sends (trace_of (distribute E ([inst], false) w1)) = [(3, inst)].
Proof.
  cbv zeta.
  destruct (registered_atom_is_routed (example_env running ticking) counter_atom
              (mkInstance (Electron.mk "s" "e9" "counter" None false [])
                          (Some example_conductor)) false example_world eq_refl eq_refl)
    as (Hspawn & Hsend).
  split; [exact Hspawn|].
  destruct (Hsend (world_of (register (example_env running ticking) (VAtom counter_atom)
                               example_world)) eq_refl) as (_ & Hlive).
  apply Hlive. intros n _. split; reflexivity.
Defined.

(** X15: while the context is live and every channel peer is ready,
    [conduct] loses no electron: it forwards every valid electron of the
    receive stream to the intake, reports every invalid one through
    Complete, both in receive order, and then returns if the stream was
    closed and waits otherwise. *)
Theorem conduct_loses_no_electron (E : Env) (c : Conductor)
    (receiver : list Electron * bool) (w : world)
    (Hlive : live_from E (sel_ix w)) :
  let r := conduct E c receiver w in
  sends (trace_of r) = forwarded E c w (fst receiver)
  /\ completes (trace_of r)
     = failure_reports E c (clk_ix w)
         (List.filter (fun e => negb (Valid E (VElectron e))) (fst receiver))
  /\ outcome_of r = end_of_stream (snd receiver).
Proof.
  intros r. subst r. unfold conduct.
  exact (conduct_loop_live E c (snd receiver) (fst receiver) w Hlive).
Qed.

Lemma conduct_loses_no_electron_witness :
  let E := example_env running ticking in
  let r := conduct E example_conductor ([sender_only; echo_electron; sender_only], true)
                   example_world in
  sends (trace_of r) = [(0, mkInstance echo_electron (Some example_conductor))]
  /\ map (fun cp => (Properties.Start (snd cp), Properties.End_ (snd cp)))
         (completes (trace_of r)) = [(0%Z, 1%Z); (2%Z, 3%Z)]
  /\ outcome_of r = Ret tt.
Proof.
  cbv zeta.
  destruct (conduct_loses_no_electron (example_env running ticking) example_conductor
              ([sender_only; echo_electron; sender_only], true) example_world)
    as (Hs & Hc & Ho); [intros n _; split; reflexivity|].
  rewrite Hs, Hc, Ho. repeat split.
Defined.

(** X16: while the context is live and every channel peer is ready,
    [distribute] loses no routable instance: every instance of the intake
    whose AtomID has a channel is sent on that channel, in intake order,
    and the loop then returns if the intake was closed and waits
    otherwise. *)
Theorem distribute_loses_no_instance (E : Env) (intake : list instance * bool)
    (w : world) (Hlive : live_from E (sel_ix w)) :
  let r := distribute E intake w in
  sends (trace_of r) = omap (route (atoms (disp w))) (fst intake)
  /\ outcome_of r = end_of_stream (snd intake).
Proof.
  intros r. subst r. unfold distribute.
  exact (distribute_loop_live E (snd intake) (fst intake) w Hlive).
Qed.

Lemma distribute_loses_no_instance_witness :
  let E := example_env running ticking in
  let w := set_atoms {[ "echo" := 7%nat ]} example_world in
  let known := mkInstance echo_electron (Some example_conductor) in
  let unknown := mkInstance (Electron.mk "s" "e2" "missing" None false [])
                            (Some example_conductor) in
  sends (trace_of (distribute E ([known; unknown; known], false) w))
  = [(7, known); (7, known)]
  /\ outcome_of (distribute E ([known; unknown; known], false) w) = Blocked.
Proof.
  cbv zeta.
  destruct (distribute_loses_no_instance (example_env running ticking)
              ([mkInstance echo_electron (Some example_conductor);
                mkInstance (Electron.mk "s" "e2" "missing" None false [])
                           (Some example_conductor);
                mkInstance echo_electron (Some example_conductor)], false)
              (set_atoms {[ "echo" := 7%nat ]} example_world))
    as (Hs & Ho); [intros n _; split; reflexivity|].
  rewrite Hs, Ho. split; [vm_compute; reflexivity | reflexivity].
Defined.

(** ** Forwarding order *)

Section Forwarding.

Variable E : Env.

Lemma pulled_app t1 t2 : pulled (t1 ++ t2) = pulled t1 ++ pulled t2.
Proof. apply omap_app. Qed.

Lemma forwarded_cons_valid (c : Conductor) (w : world) (e : Electron) (l : list Electron) :
  Valid E (VElectron e) = true ->
  forwarded E c w (e :: l) = (electrons (disp w), mkInstance e (Some c)) :: forwarded E c w l.
Proof. intros Hv. unfold forwarded. cbn [List.filter]. now rewrite Hv. Qed.

Lemma forwarded_cons_invalid (c : Conductor) (w : world) (e : Electron) (l : list Electron) :
  Valid E (VElectron e) = false -> forwarded E c w (e :: l) = forwarded E c w l.
Proof. intros Hv. unfold forwarded. cbn [List.filter]. now rewrite Hv. Qed.

Lemma nothing_pulled (c : Conductor) (w : world) (stream : list Electron) (t : list action) :
  pulled t = [] -> sends t = [] -> pulled_and_forwarded E c w stream t.
Proof.
  intros Hp Hs. exists 0. split; [lia|]. split; [exact Hp|]. left. exact Hs.
Qed.

(** The electron at the head was pulled, is valid, and the run ended
    before it was sent. *)
Lemma head_dropped (c : Conductor) (w : world) (e : Electron) (rest : list Electron)
    (t : list action) :
  Valid E (VElectron e) = true ->
  pulled t = [electron_ids e] -> sends t = [] ->
  pulled_and_forwarded E c w (e :: rest) t.
Proof.
  intros Hv Hp Hs. exists 1. split; [cbn; lia|]. split; [exact Hp|].
  right. exists 0, e. repeat split; assumption.
Qed.

(** The electron at the head was dealt with and the loop went on. *)
Lemma head_then_rest (c : Conductor) (w w' : world) (e : Electron) (rest : list Electron)
    (t1 t2 : list action) :
  disp w' = disp w ->
  pulled t1 = [electron_ids e] ->
  sends t1 = forwarded E c w [e] ->
  pulled_and_forwarded E c w' rest t2 ->
  pulled_and_forwarded E c w (e :: rest) (t1 ++ t2).
Proof.
  intros Hd Hp Hs (k & Hk & Hpk & Hsk).
  assert (Hfw : forall l, forwarded E c w' l = forwarded E c w l)
    by (intros l; unfold forwarded; now rewrite Hd).
  assert (Hcons : forall l, forwarded E c w (e :: l)
                            = forwarded E c w [e] ++ forwarded E c w l).
  { intros l. destruct (Valid E (VElectron e)) eqn:Hv.
    - now rewrite !forwarded_cons_valid by exact Hv.
    - now rewrite !forwarded_cons_invalid by exact Hv. }
  exists (S k). split; [cbn; lia|].
  split; [rewrite pulled_app, Hp, Hpk; reflexivity|].
  rewrite sends_app, Hs.
  destruct Hsk as [Hall | (j & e' & -> & Hj & Hv' & Hdrop)].
  - left. rewrite Hall, Hfw. cbn [firstn]. symmetry. apply Hcons.
  - right. exists (S j), e'. split; [reflexivity|]. split; [exact Hj|].
    split; [exact Hv'|]. rewrite Hdrop, Hfw. cbn [firstn]. symmetry. apply Hcons.
Qed.

Lemma conduct_loop_pulled (c : Conductor) (closes : bool) (stream : list Electron) :
  forall w,
    pulled_and_forwarded E c w stream (trace_of (conduct_loop E c closes stream w)).
Proof.
  induction stream as [|e rest IH]; intros w.
  - cbn [conduct_loop]. rewrite bind_select.
    destruct (select2 _ _); try (now apply nothing_pulled).
    lazymatch goal with |- context [event1 E ?v (tick w)] =>
      destruct (event1_spec E v (tick w)) as (d & n & o & -> & _) end.
    now apply nothing_pulled.
  - cbn [conduct_loop]. rewrite bind_select.
    destruct (select2 _ _); try (now apply nothing_pulled).
    destruct (Valid E (VElectron e)) eqn:Hv.
    + unfold conduct_valid.
      step_event E; [|run_eq; now apply head_dropped].
      rewrite bind_select.
      destruct (select2 _ _); try (run_eq; now apply head_dropped).
      rewrite bind_get, bind_tell.
      step_event E.
      * run_eq.
        lazymatch goal with |- pulled_and_forwarded _ _ _ _ (?a ++ ?b ++ ?c' ++ ?t2) =>
          replace (a ++ b ++ c' ++ t2) with ((a ++ b ++ c') ++ t2)
            by (now rewrite <- !app_assoc) end.
        apply (head_then_rest c w (set_sel_ix n0 (tick (set_sel_ix n (tick w)))));
          [reflexivity | reflexivity | | apply IH].
        now rewrite forwarded_cons_valid.
      * run_eq. exists 1. split; [cbn; lia|]. split; [reflexivity|]. left.
        cbn [firstn]. now rewrite forwarded_cons_valid.
    + destruct (conduct_invalid_run E c e (tick w)) as (d & n & o & Heq & [->|[-> _]]).
      * rewrite (bind_ret_tt _ _ _ _ _ Heq). run_eq.
        apply (head_then_rest c w
                 (set_sel_ix n (set_clk_ix (S (S (clk_ix (tick w)))) (tick w))));
          [reflexivity | reflexivity | | apply IH].
        now rewrite forwarded_cons_invalid.
      * rewrite (bind_blocked _ _ _ _ _ Heq). run_eq.
        exists 1. split; [cbn; lia|]. split; [reflexivity|]. left.
        cbn [firstn]. now rewrite forwarded_cons_invalid.
Qed.

End Forwarding.

(** C9, as the code has it: what one conductor adapter sends goes to the
    intake channel only and is, in receive order and each once, the valid
    electrons among those it pulled from its receive stream - except that
    the last electron pulled, if valid, is not forwarded when the run ends
    inside its iteration (the context is done at the forwarding select, or
    the adapter stays blocked on the emission or the send). While the
    context is live and every peer is ready, the whole stream is pulled and
    every valid electron of it is forwarded. *)
Theorem conduct_forwards_what_it_pulled (E : Env) (c : Conductor)
    (receiver : list Electron * bool) (w : world) :
  let t := trace_of (conduct E c receiver w) in
  let stream := fst receiver in
  (exists k,
     k <= length stream
     /\ pulled t = map electron_ids (firstn k stream)
     /\ (sends t = forwarded E c w (firstn k stream)
         \/ exists j e,
              k = S j /\ stream !! j = Some e /\ Valid E (VElectron e) = true
              /\ sends t = forwarded E c w (firstn j stream)))
  /\ (live_from E (sel_ix w) -> sends t = forwarded E c w stream).
Proof.
  intros t stream. subst t stream. unfold conduct. split.
  - exact (conduct_loop_pulled E c (snd receiver) (fst receiver) w).
  - intros Hlive.
    destruct (conduct_loop_live E c (snd receiver) (fst receiver) w Hlive) as (Hs & _).
    exact Hs.
Qed.

Lemma conduct_forwards_what_it_pulled_witness :
  let E := example_env running ticking in
  let other := Electron.mk "s" "e3" "echo" None false [] in
  sends (trace_of (conduct E example_conductor ([echo_electron; sender_only; other], true)
                           example_world))
  = [(0, mkInstance echo_electron (Some example_conductor));
     (0, mkInstance other (Some example_conductor))].
Proof.
  cbv zeta.
  destruct (conduct_forwards_what_it_pulled (example_env running ticking)
              example_conductor
              ([echo_electron; sender_only; Electron.mk "s" "e3" "echo" None false []], true)
              example_world) as (_ & Hlive).
  rewrite Hlive; [reflexivity|]. intros n _. split; reflexivity.
Defined.

(** C9 as stated fails: the adapter pulls a valid electron, announces it,
    and finds the context done at the select that would forward it; the
    electron was pulled and is never sent to the intake. *)
Lemma pulled_electron_dropped_on_cancel :
  let E := example_env (cancelled_from 2) ticking in
  let r := conduct E example_conductor ([echo_electron], false) example_world in
  Valid E (VElectron echo_electron) = true
  /\ trace_of r
     = [AEmit (VEvent (Event.mk "electron received" "e1" "echo" "bus")) (Delivered 2)]
  /\ pulled (trace_of r) = [electron_ids echo_electron]
  /\ sends (trace_of r) = []
  /\ sends (trace_of r) <> forwarded E example_conductor example_world [echo_electron]
  /\ outcome_of r = Ret tt.
Proof.
  cbv zeta. split; [reflexivity|]. split; [vm_compute; reflexivity|].
  split; [vm_compute; reflexivity|]. split; [vm_compute; reflexivity|].
  split; [|vm_compute; reflexivity].
  vm_compute. discriminate.
Qed.
